(** * go-raytracing: the ray-tracing kernel of [main.go] and [vector3/vector3.go]

    A shallow embedding of the renderer's kernel (ray/sphere intersection,
    closest-hit search, lighting, recursive reflection) together with the
    properties stated about it.

    Numbers.  Go's [float64] is IEEE 754 binary64; it is modelled by the
    Standard Library's [spec_float] at precision 53 and maximal exponent
    1024, whose operations round to nearest-even exactly as the hardware
    does.  Go's compilers may fuse [x*y + z] on some targets; the model
    rounds every operation separately, as gc does on amd64.

    Effects.  [panic] is the [Panic] outcome; the line written by
    [fmt.Println] is collected in a log; the recursion of [TraceRay] is
    driven by fuel, and its termination is proved rather than assumed. *)

From Stdlib Require Import ZArith List Bool String Lia.
From Stdlib Require Import Floats.SpecFloat.
Import ListNotations.

Local Open Scope Z_scope.

(** ** binary64 *)

Module F64.

Definition float := spec_float.

Definition prec : Z := 53.
Definition emax : Z := 1024.

Definition fadd : float -> float -> float := SFadd prec emax.
Definition fsub : float -> float -> float := SFsub prec emax.
Definition fmul : float -> float -> float := SFmul prec emax.
Definition fdiv : float -> float -> float := SFdiv prec emax.
Definition fneg : float -> float := SFopp.

(** Go's comparison operators on float64: every comparison with a NaN
    operand is false. *)
Definition feq (x y : float) : bool := SFeqb x y.   (* x == y *)
Definition flt (x y : float) : bool := SFltb x y.   (* x <  y *)
Definition fle (x y : float) : bool := SFleb x y.   (* x <= y *)
Definition fgt (x y : float) : bool := SFltb y x.   (* x >  y *)
Definition fge (x y : float) : bool := SFleb y x.   (* x >= y *)
Definition fne (x y : float) : bool := negb (SFeqb x y).  (* x != y *)

(** float64(n) for an integer n, and the value of a decimal literal p/q. *)
Definition of_Z (n : Z) : float := binary_normalize prec emax n 0 false.
Definition of_ratio (p q : Z) : float := fdiv (of_Z p) (of_Z q).

Definition zero : float := S754_zero false.
Definition one : float := Eval vm_compute in of_Z 1.
Definition NaN : float := S754_nan.
Definition Inf (neg : bool) : float := S754_infinity neg.

Definition is_nan (x : float) : bool :=
  match x with S754_nan => true | _ => false end.
Definition is_inf (x : float) : bool :=
  match x with S754_infinity _ => true | _ => false end.
Definition is_finite (x : float) : bool :=
  match x with S754_zero _ | S754_finite _ _ _ => true | _ => false end.
Definition signbit (x : float) : bool :=
  match x with
  | S754_zero s | S754_infinity s | S754_finite s _ _ => s
  | S754_nan => false
  end.

(** Truncation toward zero of a finite value, as an integer. *)
Definition truncZ (x : float) : Z :=
  match x with
  | S754_finite s m e =>
      let a := match e with
               | Z0 => Zpos m
               | Zpos p => Z.shiftl (Zpos m) e
               | Zneg p => Z.shiftr (Zpos m) (Zpos p)
               end in
      if s then Z.opp a else a
  | _ => 0
  end.

(** uint8(x).  Go defines the conversion when the truncated value fits the
    target type; otherwise the result is implementation-specific.  gc on
    amd64 converts to a 32-bit integer (CVTTSD2SL, which yields 0x80000000
    for NaN and for values outside the 32-bit range) and keeps the low
    byte. *)
Definition to_uint8 (x : float) : Z :=
  match x with
  | S754_finite _ _ _ =>
      let n := truncZ x in
      if (-2147483648 <=? n) && (n <=? 2147483647) then n mod 256 else 0
  | _ => 0
  end.

End F64.

(** ** Go's [math] package

    The functions of the standard library that the kernel calls.  They are
    not part of the repository; each is modelled after its pure-Go
    definition and its documented special cases. *)

Module math.
Import F64.

Definition MaxFloat64 : float := Eval vm_compute in SFmax_float prec emax.

Definition Abs (x : float) : float := SFabs x.
Definition Sqrt (x : float) : float := SFsqrt prec emax x.
Definition IsNaN (x : float) : bool := is_nan x.

(** IsInf(f, sign): sign > 0 asks for +Inf, sign < 0 for -Inf, 0 for either. *)
Definition IsInf (f : float) (sign : Z) : bool :=
  match f with
  | S754_infinity s => if s then sign <=? 0 else 0 <=? sign
  | _ => false
  end.

Definition Signbit (x : float) : bool := signbit x.

Definition Copysign (f sign : float) : float :=
  if Bool.eqb (signbit f) (signbit sign) then f else fneg f.

(** Max(x, y): +Inf if either is +Inf, NaN if either is NaN, and
    Max(+0, -0) = Max(-0, +0) = +0. *)
Definition Max (x y : float) : float :=
  if IsInf x 1 || IsInf y 1 then Inf false
  else if IsNaN x || IsNaN y then NaN
  else if feq x zero && feq x y then (if Signbit x then y else x)
  else if fgt x y then x
  else y.

(** Min(x, y): -Inf if either is -Inf, NaN if either is NaN, and
    Min(+0, -0) = Min(-0, +0) = -0. *)
Definition Min (x y : float) : float :=
  if IsInf x (-1) || IsInf y (-1) then Inf true
  else if IsNaN x || IsNaN y then NaN
  else if feq x zero && feq x y then (if Signbit x then x else y)
  else if flt x y then x
  else y.

(** Frexp(f) = (frac, exp) with f = frac * 2^exp and 1/2 <= |frac| < 1;
    Frexp of 0, Inf or NaN is (f, 0). *)
Definition Frexp (f : float) : float * Z :=
  match f with
  | S754_finite _ _ _ => SFfrexp prec emax f
  | _ => (f, 0)
  end.

(** Ldexp(frac, exp) = frac * 2^exp, rounded once. *)
Definition Ldexp (frac : float) (exp : Z) : float := SFldexp prec emax frac exp.

(** Modf(f) = (integer part, fractional part), both with the sign of f.
    For f >= 1 the integer part keeps the bits above the binary point and
    the fraction is f - int. *)
Definition modf_ge1 (f : float) : float * float :=
  let int := match f with
             | S754_finite _ _ (Zneg _) => of_Z (truncZ f)
             | _ => f
             end in
  (int, fsub f int).

Definition modf_nonneg (f : float) : float * float :=
  if flt f one then
    (if feq f zero then (f, f) else (zero, f))
  else modf_ge1 f.

Definition Modf (f : float) : float * float :=
  if flt f one && flt f zero then
    let '(int, frac) := modf_nonneg (fneg f) in (fneg int, fneg frac)
  else modf_nonneg f.

Definition isOddInt (x : float) : bool :=
  if fge (Abs x) (of_Z 9007199254740992) then false
  else let '(xi, xf) := Modf x in feq xf zero && Z.odd (truncZ xi).

Section Pow.
(** The exponential and the logarithm only enter [Pow] through the factor
    [Exp(yf * Log(x))] of a fractional exponent; gc has target-specific
    versions of both, so they stay parameters. *)
Variables Exp Log : float -> float.

(** The squaring loop [for i := int64(yi); i != 0; i >>= 1], carrying
    ans = a1 * 2^ae and the running power x1 * 2^xe. *)
Fixpoint pow_loop (i : positive) (a1 : float) (ae : Z) (x1 : float) (xe : Z)
  : float * Z :=
  if (xe <? -4096) || (4096 <? xe) then (a1, ae + xe)
  else
    let '(a1, ae) :=
      match i with
      | xO _ => (a1, ae)
      | _ => (fmul a1 x1, ae + xe)
      end in
    let x1 := fmul x1 x1 in
    let xe := 2 * xe in
    let '(x1, xe) :=
      if flt x1 (of_ratio 1 2) then (fadd x1 x1, xe - 1) else (x1, xe) in
    match i with
    | xH => (a1, ae)
    | xO i' | xI i' => pow_loop i' a1 ae x1 xe
    end.

(** The part of [pow] after its switch of special cases. *)
Definition pow_general (x y : float) : float :=
  let '(yi, yf) := Modf (Abs y) in
  if fne yf zero && flt x zero then NaN
  else if fge yi (of_Z 9223372036854775808) then
    (if feq x (of_Z (-1)) then one
     else if Bool.eqb (flt (Abs x) one) (fgt y zero) then zero
     else Inf false)
  else
    let '(yi, a1) :=
      if fne yf zero then
        let '(yi, yf) :=
          if fgt yf (of_ratio 1 2) then (fadd yi one, fsub yf one)
          else (yi, yf) in
        (yi, Exp (fmul yf (Log x)))
      else (yi, one) in
    let '(x1, xe) := Frexp x in
    let '(a1, ae) :=
      match truncZ yi with
      | Zpos i => pow_loop i a1 0 x1 xe
      | _ => (a1, 0)
      end in
    let '(a1, ae) := if flt y zero then (fdiv one a1, - ae) else (a1, ae) in
    Ldexp a1 ae.

(** [pow] re-enters itself once, for x = -Inf, as Pow(1/x, -y) with
    1/x = -0; that call returns from the zero-base case.  [n] bounds the
    re-entries. *)
Fixpoint pow (n : nat) (x y : float) : float :=
  if feq y zero || feq x one then one
  else if feq y one then x
  else if IsNaN x || IsNaN y then NaN
  else if feq x zero then
    (if flt y zero then
       (if Signbit x && isOddInt y then Copysign (Inf false) x else Inf false)
     else if fgt y zero then
       (if Signbit x && isOddInt y then x else zero)
     else pow_general x y)
  else if IsInf y 0 then
    (if feq x (of_Z (-1)) then one
     else if Bool.eqb (flt (Abs x) one) (IsInf y 1) then zero
     else Inf false)
  else if IsInf x 0 then
    (if IsInf x (-1) then
       match n with
       | O => NaN
       | S n' => pow n' (fdiv one x) (fneg y)
       end
     else if flt y zero then zero
     else if fgt y zero then Inf false
     else pow_general x y)
  else if feq y (of_ratio 1 2) then Sqrt x
  else if feq y (of_ratio (-1) 2) then fdiv one (Sqrt x)
  else pow_general x y.

Definition Pow (x y : float) : float := pow 1 x y.
End Pow.

End math.

(** ** Package [vector3] *)

Module vector3.
Import F64.

Record Vector3 := mkVector3 { X : float; Y : float; Z : float }.

(** The package-level functions. *)

Definition Add (v1 v2 : Vector3) : Vector3 :=
  mkVector3 (fadd (X v1) (X v2)) (fadd (Y v1) (Y v2)) (fadd (Z v1) (Z v2)).

Definition Sub (v1 v2 : Vector3) : Vector3 :=
  mkVector3 (fsub (X v1) (X v2)) (fsub (Y v1) (Y v2)) (fsub (Z v1) (Z v2)).

Definition Dot (v1 v2 : Vector3) : float :=
  fadd (fadd (fmul (X v1) (X v2)) (fmul (Y v1) (Y v2))) (fmul (Z v1) (Z v2)).

(** The methods on [*Vector3]; the receiver is the first argument. *)

Definition Vector3_Copy (v : Vector3) : Vector3 := mkVector3 (X v) (Y v) (Z v).

Definition Vector3_Sub (v other : Vector3) : Vector3 :=
  mkVector3 (fsub (X v) (X other)) (fsub (Y v) (Y other)) (fsub (Z v) (Z other)).

Definition Vector3_MulScalar (v : Vector3) (scalar : float) : Vector3 :=
  mkVector3 (fmul (X v) scalar) (fmul (Y v) scalar) (fmul (Z v) scalar).

Definition Vector3_DivScalar (v : Vector3) (scalar : float) : Vector3 :=
  mkVector3 (fdiv (X v) scalar) (fdiv (Y v) scalar) (fdiv (Z v) scalar).

Definition Vector3_Negate (v : Vector3) : Vector3 :=
  mkVector3 (fneg (X v)) (fneg (Y v)) (fneg (Z v)).

Definition Vector3_Dot (v other : Vector3) : float :=
  fadd (fadd (fmul (X v) (X other)) (fmul (Y v) (Y other))) (fmul (Z v) (Z other)).

Definition Vector3_Length (v : Vector3) : float :=
  math.Sqrt (fadd (fadd (fmul (X v) (X v)) (fmul (Y v) (Y v))) (fmul (Z v) (Z v))).

Definition Vector3_Normalize (v : Vector3) : Vector3 :=
  let m := Vector3_Length v in
  if fgt m zero then Vector3_DivScalar v m else Vector3_Copy v.

Definition Vector3_Reflect (v other : Vector3) : Vector3 :=
  let factor := fmul (of_Z (-2)) (Vector3_Dot v other) in
  mkVector3 (fadd (fmul factor (X v)) (X other))
            (fadd (fmul factor (Y v)) (Y other))
            (fadd (fmul factor (Z v)) (Z other)).

(** The remaining package-level functions. *)

Definition AddScalar (v : Vector3) (scalar : float) : Vector3 :=
  mkVector3 (fadd (X v) scalar) (fadd (Y v) scalar) (fadd (Z v) scalar).

Definition AddScalars (v : Vector3) (x y z : float) : Vector3 :=
  mkVector3 (fadd (X v) x) (fadd (Y v) y) (fadd (Z v) z).

Definition SubScalar (v : Vector3) (scalar : float) : Vector3 :=
  mkVector3 (fsub (X v) scalar) (fsub (Y v) scalar) (fsub (Z v) scalar).

Definition SubScalars (v : Vector3) (x y z : float) : Vector3 :=
  mkVector3 (fsub (X v) x) (fsub (Y v) y) (fsub (Z v) z).

Definition Mul (v1 v2 : Vector3) : Vector3 :=
  mkVector3 (fmul (X v1) (X v2)) (fmul (Y v1) (Y v2)) (fmul (Z v1) (Z v2)).

Definition MulScalar (v : Vector3) (scalar : float) : Vector3 :=
  mkVector3 (fmul (X v) scalar) (fmul (Y v) scalar) (fmul (Z v) scalar).

Definition MulScalars (v : Vector3) (x y z : float) : Vector3 :=
  mkVector3 (fmul (X v) x) (fmul (Y v) y) (fmul (Z v) z).

Definition Div (v1 v2 : Vector3) : Vector3 :=
  mkVector3 (fdiv (X v1) (X v2)) (fdiv (Y v1) (Y v2)) (fdiv (Z v1) (Z v2)).

Definition DivScalar (v : Vector3) (scalar : float) : Vector3 :=
  mkVector3 (fdiv (X v) scalar) (fdiv (Y v) scalar) (fdiv (Z v) scalar).

Definition DivScalars (v : Vector3) (x y z : float) : Vector3 :=
  mkVector3 (fdiv (X v) x) (fdiv (Y v) y) (fdiv (Z v) z).

Definition Cross (v1 v2 : Vector3) : Vector3 :=
  mkVector3 (fsub (fmul (Y v1) (Z v2)) (fmul (Z v1) (Y v2)))
            (fsub (fmul (Z v1) (X v2)) (fmul (X v1) (Z v2)))
            (fsub (fmul (X v1) (Y v2)) (fmul (Y v1) (X v2))).

Definition Lerp (a b : Vector3) (t : float) : Vector3 :=
  mkVector3 (fadd (X a) (fmul (fsub (X b) (X a)) t))
            (fadd (Y a) (fmul (fsub (Y b) (Y a)) t))
            (fadd (Z a) (fmul (fsub (Z b) (Z a)) t)).

Definition Distance (a b : Vector3) : float :=
  let dx := fsub (X a) (X b) in
  let dy := fsub (Y a) (Y b) in
  let dz := fsub (Z a) (Z b) in
  math.Sqrt (fadd (fadd (fmul dx dx) (fmul dy dy)) (fmul dz dz)).

Definition Reflect (v1 v2 : Vector3) : Vector3 :=
  let factor := fmul (of_Z (-2)) (Dot v1 v2) in
  mkVector3 (fadd (fmul factor (X v1)) (X v2))
            (fadd (fmul factor (Y v1)) (Y v2))
            (fadd (fmul factor (Z v1)) (Z v2)).

(** The remaining methods.  [Set] assigns the receiver's three fields; the
    model returns the receiver after the assignment. *)

Definition Vector3_Set (v : Vector3) (x y z : float) : Vector3 := mkVector3 x y z.

Definition Vector3_Add (v other : Vector3) : Vector3 :=
  mkVector3 (fadd (X v) (X other)) (fadd (Y v) (Y other)) (fadd (Z v) (Z other)).

Definition Vector3_AddScalar (v : Vector3) (scalar : float) : Vector3 :=
  mkVector3 (fadd (X v) scalar) (fadd (Y v) scalar) (fadd (Z v) scalar).

Definition Vector3_AddScalars (v : Vector3) (x y z : float) : Vector3 :=
  mkVector3 (fadd (X v) x) (fadd (Y v) y) (fadd (Z v) z).

Definition Vector3_SubScalar (v : Vector3) (scalar : float) : Vector3 :=
  mkVector3 (fsub (X v) scalar) (fsub (Y v) scalar) (fsub (Z v) scalar).

Definition Vector3_SubScalars (v : Vector3) (x y z : float) : Vector3 :=
  mkVector3 (fsub (X v) x) (fsub (Y v) y) (fsub (Z v) z).

Definition Vector3_Mul (v other : Vector3) : Vector3 :=
  mkVector3 (fmul (X v) (X other)) (fmul (Y v) (Y other)) (fmul (Z v) (Z other)).

Definition Vector3_MulScalars (v : Vector3) (x y z : float) : Vector3 :=
  mkVector3 (fmul (X v) x) (fmul (Y v) y) (fmul (Z v) z).

Definition Vector3_Div (v other : Vector3) : Vector3 :=
  mkVector3 (fdiv (X v) (X other)) (fdiv (Y v) (Y other)) (fdiv (Z v) (Z other)).

Definition Vector3_DivScalars (v : Vector3) (x y z : float) : Vector3 :=
  mkVector3 (fdiv (X v) x) (fdiv (Y v) y) (fdiv (Z v) z).

Definition Vector3_Distance (v other : Vector3) : float :=
  let dx := fsub (X v) (X other) in
  let dy := fsub (Y v) (Y other) in
  let dz := fsub (Z v) (Z other) in
  math.Sqrt (fadd (fadd (fmul dx dx) (fmul dy dy)) (fmul dz dz)).

Definition Vector3_Cross (v other : Vector3) : Vector3 :=
  mkVector3 (fsub (fmul (Y v) (Z other)) (fmul (Z v) (Y other)))
            (fsub (fmul (Z v) (X other)) (fmul (X v) (Z other)))
            (fsub (fmul (X v) (Y other)) (fmul (Y v) (X other))).

Definition Vector3_Equals (v other : Vector3) : bool :=
  feq (X v) (X other) && feq (Y v) (Y other) && feq (Z v) (Z other).

End vector3.

(** ** Package [main] *)

Import F64.

Definition Vec3 := vector3.Vector3.

(** color.RGBA: four uint8 channels, kept as integers in [0, 256). *)
Record Color := mkColor { R : Z; G : Z; B : Z; A : Z }.

(** LightType is a uint32 with two named values. *)
Definition LightType := Z.
Definition Point : LightType := 0.
Definition Ambient : LightType := 1.

Definition Epsilon : float := Eval vm_compute in of_ratio 1 1000.
Definition MaxIntensity : float := one.

Record Light := mkLight {
  lightType : LightType;
  position : Vec3;
  intensity : float
}.

Record Sphere := mkSphere {
  radius : float;
  center : Vec3;
  color : Color;
  specular : float;
  reflective : float
}.

(** What a call does: it returns a value or it panics with a message. *)
Inductive outcome (A : Type) : Type :=
| Ret (a : A)
| Panic (msg : string).
Arguments Ret {A} a.
Arguments Panic {A} msg.

Definition bind {A B : Type} (c : outcome A) (k : A -> outcome B) : outcome B :=
  match c with
  | Ret a => k a
  | Panic msg => Panic msg
  end.

Notation "x <- c ;; k" := (bind c (fun x => k))
  (at level 61, c at next level, right associativity).
Notation "' pat <- c ;; k" := (bind c (fun x => match x with pat => k end))
  (at level 61, pat pattern, c at next level, right associativity).

Definition Sphere_IsNull (s : Sphere) : bool :=
  fle (math.Abs (fsub (radius s) zero)) Epsilon
  && fle (math.Abs (fsub (vector3.Vector3_Length (center s)) zero)) Epsilon.

Definition Sphere_ComputeIntersection (s : Sphere) (startPoint direction : Vec3)
  : outcome (float * float) :=
  let oc := vector3.Vector3_Sub startPoint (center s) in
  let a := vector3.Dot direction direction in
  if feq a zero then Panic "ComputeIntersection: Division by zero"
  else
    let b := fmul (of_Z 2) (vector3.Dot oc direction) in
    let c := fsub (vector3.Dot oc oc) (fmul (radius s) (radius s)) in
    let discriminant := fsub (fmul b b) (fmul (fmul (of_Z 4) a) c) in
    if flt discriminant zero then Ret (of_Z (-1), of_Z (-1))
    else
      let t1 := fdiv (fadd (fneg b) (math.Sqrt discriminant)) (fmul (of_Z 2) a) in
      let t2 := fdiv (fsub (fneg b) (math.Sqrt discriminant)) (fmul (of_Z 2) a) in
      Ret (t1, t2).

(** The sphere [FindClosest] starts from: the "no intersection" sentinel. *)
Definition nullSphere : Sphere :=
  mkSphere zero (vector3.mkVector3 zero zero zero) (mkColor 0 0 0 255) zero zero.

(** The test of one root in the loop of [FindClosest]. *)
Definition closer (tMin tMax closestT t : float) : bool :=
  fge t tMin && fle t tMax && flt t closestT.

(** The loop of [FindClosest] from a given (closestSphere, closestT). *)
Fixpoint FindClosest_loop (startPoint direction : Vec3) (spheres : list Sphere)
    (tMin tMax : float) (closestSphere : Sphere) (closestT : float)
  : outcome (Sphere * float) :=
  match spheres with
  | [] => Ret (closestSphere, closestT)
  | sphere :: rest =>
      '(t1, t2) <- Sphere_ComputeIntersection sphere startPoint direction ;;
      let '(closestSphere, closestT) :=
        if closer tMin tMax closestT t1 then (sphere, t1)
        else (closestSphere, closestT) in
      let '(closestSphere, closestT) :=
        if closer tMin tMax closestT t2 then (sphere, t2)
        else (closestSphere, closestT) in
      FindClosest_loop startPoint direction rest tMin tMax closestSphere closestT
  end.

Definition FindClosest (startPoint direction : Vec3) (spheres : list Sphere)
    (tMin tMax : float) : outcome (Sphere * float) :=
  FindClosest_loop startPoint direction spheres tMin tMax nullSphere math.MaxFloat64.

Definition ReflectRay (ray normal : Vec3) : Vec3 :=
  vector3.Vector3_Reflect normal (vector3.Vector3_Negate ray).

(** int8(n): the value of [n] kept in 8 signed bits. *)
Definition int8 (n : Z) : Z := (n + 128) mod 256 - 128.

(** uint8 addition wraps around. *)
Definition uint8_add (a b : Z) : Z := (a + b) mod 256.

(** The statements [c.R = uint8(float64(c.R) * k)] for R, G and B; the
    alpha channel is left alone.  [TraceRay] runs them twice: on the
    sphere's color with the light value, and on the local color with
    [1 - reflective]. *)
Definition scaleRGB (c : Color) (k : float) : Color :=
  mkColor (to_uint8 (fmul (of_Z (R c)) k))
          (to_uint8 (fmul (of_Z (G c)) k))
          (to_uint8 (fmul (of_Z (B c)) k))
          (A c).

(** The statements
    [reflectedColor.R = uint8(float64(reflectedColor.R)*reflective) + localColor.R]
    for R, G and B, where [localColor] has been scaled already. *)
Definition blendRGB (reflectedColor localColor : Color) (reflective : float) : Color :=
  mkColor (uint8_add (to_uint8 (fmul (of_Z (R reflectedColor)) reflective)) (R localColor))
          (uint8_add (to_uint8 (fmul (of_Z (G reflectedColor)) reflective)) (G localColor))
          (uint8_add (to_uint8 (fmul (of_Z (B reflectedColor)) reflective)) (B localColor))
          (A reflectedColor).

Definition background : Color := mkColor 125 125 125 255.

Definition zero_direction_warning : string := "Warning: ray direction is zero".

Section Kernel.
Variables Exp Log : float -> float.

Definition Light_ComputeLighting (light : Light) (point normal inverseDir : Vec3)
    (specular : float) (spheres : list Sphere) : outcome float :=
  let resIntensity := zero in
  let lightDir := vector3.mkVector3 zero zero zero in
  let tMax := math.MaxFloat64 in
  if lightType light =? Ambient then Ret (intensity light)
  else
    let '(lightDir, tMax) :=
      if lightType light =? Point
      then (vector3.Sub (position light) point, one)
      else (lightDir, tMax) in
    let tMin := Epsilon in
    '(closestSphere, _) <- FindClosest point lightDir spheres tMin tMax ;;
    if Sphere_IsNull closestSphere then
      let lightValue := math.Max zero (vector3.Dot lightDir normal) in
      let resIntensity :=
        fadd resIntensity
             (fdiv (fmul (intensity light) lightValue)
                   (fmul (vector3.Vector3_Length point) (vector3.Vector3_Length normal))) in
      if fgt specular (of_Z (-1)) then
        let reflectDir := ReflectRay lightDir normal in
        let specularValue := vector3.Vector3_Dot reflectDir inverseDir in
        let reflectDirLenght := vector3.Vector3_Length reflectDir in
        let inverseDirLenght := vector3.Vector3_Length inverseDir in
        if feq reflectDirLenght zero || feq inverseDirLenght zero
        then Panic "ComputeLighting: Division by zero"
        else
          let resIntensity :=
            fadd resIntensity
                 (fmul (intensity light)
                       (math.Pow Exp Log
                          (fdiv (math.Max zero specularValue)
                                (fmul (vector3.Vector3_Length reflectDir)
                                      (vector3.Vector3_Length inverseDir)))
                          specular)) in
          Ret (math.Max zero resIntensity)
      else Ret (math.Max zero resIntensity)
    else Ret (math.Max zero resIntensity).

(** The loop [for _, light := range lights { lightVal += ... }]. *)
Fixpoint sumLighting (lights : list Light) (point normal inverseDir : Vec3)
    (specular : float) (spheres : list Sphere) (lightVal : float) : outcome float :=
  match lights with
  | [] => Ret lightVal
  | light :: rest =>
      v <- Light_ComputeLighting light point normal inverseDir specular spheres ;;
      sumLighting rest point normal inverseDir specular spheres (fadd lightVal v)
  end.

(** [TraceRay]; [None] means the fuel ran out before the call returned.
    The result pairs the lines printed with the outcome of the call. *)
Fixpoint TraceRay (fuel : nat) (startPoint direction : Vec3)
    (spheres : list Sphere) (lights : list Light) (recursionDepth : Z)
    (tMin tMax : float) {struct fuel} : option (list string * outcome Color) :=
  match fuel with
  | O => None
  | S fuel' =>
    let out :=
      if feq (vector3.Vector3_Length direction) zero
      then [zero_direction_warning] else [] in
    match FindClosest startPoint direction spheres tMin tMax with
    | Panic msg => Some (out, Panic msg)
    | Ret (closestSphere, closestT) =>
      if Sphere_IsNull closestSphere then Some (out, Ret background)
      else
        let pointIntersect :=
          vector3.Add startPoint (vector3.Vector3_MulScalar direction closestT) in
        let normal := vector3.Sub pointIntersect (center closestSphere) in
        let normal := vector3.Vector3_Normalize normal in
        match sumLighting lights pointIntersect normal
                (vector3.Vector3_Negate direction) (specular closestSphere)
                spheres zero with
        | Panic msg => Some (out, Panic msg)
        | Ret lightVal =>
          let lightVal := math.Min MaxIntensity lightVal in
          let localColor := scaleRGB (color closestSphere) lightVal in
          if fle (reflective closestSphere) zero || (recursionDepth <=? 0)
          then Some (out, Ret localColor)
          else
            let reflectedRay :=
              ReflectRay (vector3.Vector3_Negate direction) normal in
            let tMin := Epsilon in
            match TraceRay fuel' pointIntersect reflectedRay spheres lights
                    (int8 (recursionDepth - 1)) tMin tMax with
            | None => None
            | Some (out', Panic msg) => Some (out ++ out', Panic msg)
            | Some (out', Ret reflectedColor) =>
              let localColor :=
                scaleRGB localColor (fsub one (reflective closestSphere)) in
              Some (out ++ out',
                    Ret (blendRGB reflectedColor localColor
                           (reflective closestSphere)))
            end
        end
    end
  end.
End Kernel.

(** The scene and the camera ray of [main]. *)
Definition main_spheres : list Sphere :=
  [ mkSphere (of_Z 1) (vector3.mkVector3 (of_Z 0) (of_Z (-1)) (of_Z 3))
      (mkColor 255 0 0 255) (of_Z 100) (of_ratio 1 100);
    mkSphere (of_Z 1) (vector3.mkVector3 (of_Z (-2)) (of_Z 0) (of_Z 3))
      (mkColor 0 255 0 255) (of_Z 25) (of_ratio 1 2);
    mkSphere (of_Z 1) (vector3.mkVector3 (of_Z 2) (of_Z 0) (of_Z 3))
      (mkColor 0 0 255 255) (of_Z 15) (of_ratio 1 10);
    mkSphere (of_Z 2000) (vector3.mkVector3 (of_Z 0) (of_Z (-2001)) (of_Z 5))
      (mkColor 255 255 0 255) (of_Z 1000) (of_Z 0) ].

Definition main_lights : list Light :=
  [ mkLight Point (vector3.mkVector3 (of_Z (-4)) (of_Z 5) (of_Z 2)) (of_ratio 1 5);
    mkLight Point (vector3.mkVector3 (of_Z 2) (of_Z 1) (of_Z 0)) (of_ratio 1 5);
    mkLight Ambient (vector3.mkVector3 zero zero zero) (of_ratio 3 10) ].

Definition main_start : Vec3 := vector3.mkVector3 (of_Z 0) (of_Z 0) (of_Z 0).

(** The direction of the camera ray of pixel (row, col) in [main], with
    w = h = 2048 and rayDistance = 1. *)
Definition main_rayDirection (row col : Z) : Vec3 :=
  let x := fsub (fdiv (fmul (fadd (of_Z row) (of_ratio 1 2)) (of_Z 2)) (of_Z 2048)) (of_Z 1) in
  let y := fsub (of_Z 1) (fdiv (fmul (fadd (of_Z col) (of_ratio 1 2)) (of_Z 2)) (of_Z 2048)) in
  vector3.mkVector3 x y (of_Z 1).

(** ** The vocabulary of the properties *)

(** The discriminant [ComputeIntersection] computes for [s]. *)
Definition discriminant (s : Sphere) (startPoint direction : Vec3) : float :=
  let oc := vector3.Vector3_Sub startPoint (center s) in
  let a := vector3.Dot direction direction in
  let b := fmul (of_Z 2) (vector3.Dot oc direction) in
  let c := fsub (vector3.Dot oc oc) (fmul (radius s) (radius s)) in
  fsub (fmul b b) (fmul (fmul (of_Z 4) a) c).

(** [t] is one of the two values [ComputeIntersection] returns for [s]:
    a root, or the -1 of the pair (-1, -1) it returns for a negative
    discriminant. *)
Definition candidate (s : Sphere) (startPoint direction : Vec3) (t : float) : Prop :=
  exists t1 t2,
    Sphere_ComputeIntersection s startPoint direction = Ret (t1, t2)
    /\ (t = t1 \/ t = t2).

(** [t] is a root of [s]: the discriminant is not negative, and [t] is
    one of the two roots [ComputeIntersection] computes from it. *)
Definition root (s : Sphere) (startPoint direction : Vec3) (t : float) : Prop :=
  flt (discriminant s startPoint direction) zero = false
  /\ candidate s startPoint direction t.

(** [t] lies in the closed interval [tMin, tMax]. *)
Definition in_interval (tMin tMax t : float) : bool := fge t tMin && fle t tMax.

(** [t] lies in [tMin, tMax] and below the largest finite float. *)
Definition below_max (tMin tMax t : float) : bool :=
  in_interval tMin tMax t && flt t math.MaxFloat64.

(** [(s, t)] is a closest hit: [s] is a sphere of the scene, [t] a root of
    it inside the interval, no root of any sphere inside the interval is
    smaller, and every such root of an earlier sphere is strictly larger. *)
Definition closest_hit (startPoint direction : Vec3) (spheres : list Sphere)
    (tMin tMax : float) (s : Sphere) (t : float) : Prop :=
  exists i,
    nth_error spheres i = Some s
    /\ root s startPoint direction t
    /\ in_interval tMin tMax t = true
    /\ (forall j s' r, nth_error spheres j = Some s' ->
          root s' startPoint direction r ->
          in_interval tMin tMax r = true -> fle t r = true)
    /\ (forall j s' r, (j < i)%nat -> nth_error spheres j = Some s' ->
          root s' startPoint direction r ->
          in_interval tMin tMax r = true -> flt t r = true).

(** The same with the values [ComputeIntersection] returns in the place of
    the roots: what the loop of [FindClosest] selects. *)
Definition closest_candidate (startPoint direction : Vec3) (spheres : list Sphere)
    (tMin tMax : float) (s : Sphere) (t : float) : Prop :=
  exists i,
    nth_error spheres i = Some s
    /\ candidate s startPoint direction t
    /\ in_interval tMin tMax t = true
    /\ (forall j s' r, nth_error spheres j = Some s' ->
          candidate s' startPoint direction r ->
          in_interval tMin tMax r = true -> fle t r = true)
    /\ (forall j s' r, (j < i)%nat -> nth_error spheres j = Some s' ->
          candidate s' startPoint direction r ->
          in_interval tMin tMax r = true -> flt t r = true).

(** [(s, t)] is the answer for "nothing found", and no root of any sphere
    is selected by [q]. *)
Definition no_hit (q : float -> bool) (startPoint direction : Vec3)
    (spheres : list Sphere) (s : Sphere) (t : float) : Prop :=
  s = nullSphere /\ t = math.MaxFloat64
  /\ forall s' r, In s' spheres -> root s' startPoint direction r -> q r = false.

(** What is said of [FindClosest], where [q] selects the qualifying roots. *)
Definition FindClosest_claim (q : float -> float -> float -> bool)
    (startPoint direction : Vec3) (spheres : list Sphere) (tMin tMax : float) : Prop :=
  forall s t, FindClosest startPoint direction spheres tMin tMax = Ret (s, t) ->
    closest_hit startPoint direction spheres tMin tMax s t
    \/ no_hit (q tMin tMax) startPoint direction spheres s t.

(** The ray misses every sphere inside [tMin, tMax]: no sphere has a root
    in the interval. *)
Definition misses_all (startPoint direction : Vec3) (spheres : list Sphere)
    (tMin tMax : float) : Prop :=
  forall s r, In s spheres ->
    root s startPoint direction r -> in_interval tMin tMax r = false.

(** What is said of a ray that misses every sphere: [TraceRay] returns the
    background gray. *)
Definition miss_claim (Exp Log : float -> float) (fuel : nat)
    (startPoint direction : Vec3) (spheres : list Sphere) (lights : list Light)
    (recursionDepth : Z) (tMin tMax : float) : Prop :=
  misses_all startPoint direction spheres tMin tMax ->
  exists out,
    TraceRay Exp Log fuel startPoint direction spheres lights recursionDepth
      tMin tMax = Some (out, Ret (mkColor 125 125 125 255)).

(** The shadow test of a point light finds the null sphere. *)
Definition unoccluded (light : Light) (point : Vec3) (spheres : list Sphere) : Prop :=
  exists s t,
    FindClosest point (vector3.Sub (position light) point) spheres Epsilon one
      = Ret (s, t)
    /\ Sphere_IsNull s = true.

(** Some sphere meets the shadow ray of a point light at a parameter in
    (Epsilon, 1]. *)
Definition blocked (light : Light) (point : Vec3) (spheres : list Sphere) : Prop :=
  exists s r,
    In s spheres
    /\ root s point (vector3.Sub (position light) point) r
    /\ flt Epsilon r = true /\ fle r one = true.

(** The diffuse term of a point light. *)
Definition diffuseTerm (light : Light) (point normal : Vec3) : float :=
  let lightDir := vector3.Sub (position light) point in
  fdiv (fmul (intensity light) (math.Max zero (vector3.Dot lightDir normal)))
       (fmul (vector3.Vector3_Length point) (vector3.Vector3_Length normal)).

(** The specular term of a point light as the code computes it: the
    quotient is raised to the exponent. *)
Definition specularTerm (Exp Log : float -> float) (light : Light)
    (point normal inverseDir : Vec3) (specular : float) : float :=
  let reflectDir := ReflectRay (vector3.Sub (position light) point) normal in
  fmul (intensity light)
       (math.Pow Exp Log
          (fdiv (math.Max zero (vector3.Vector3_Dot reflectDir inverseDir))
                (fmul (vector3.Vector3_Length reflectDir)
                      (vector3.Vector3_Length inverseDir)))
          specular).

(** The specular term with the exponent applied to the dot product and the
    division by the two lengths done afterwards. *)
Definition specularTerm_power_first (Exp Log : float -> float) (light : Light)
    (point normal inverseDir : Vec3) (specular : float) : float :=
  let reflectDir := ReflectRay (vector3.Sub (position light) point) normal in
  fdiv (fmul (intensity light)
             (math.Pow Exp Log
                (math.Max zero (vector3.Vector3_Dot reflectDir inverseDir))
                specular))
       (fmul (vector3.Vector3_Length reflectDir)
             (vector3.Vector3_Length inverseDir)).

(** What is said of the specular contribution, for a given reading [term]
    of the formula: an unoccluded point light with the specular branch
    enabled and non-zero lengths returns diffuse + term, clamped at 0. *)
Definition specular_claim
    (term : (float -> float) -> (float -> float) -> Light -> Vec3 -> Vec3 -> Vec3 -> float -> float)
    (Exp Log : float -> float) (light : Light) (point normal inverseDir : Vec3)
    (specular : float) (spheres : list Sphere) : Prop :=
  lightType light = Point ->
  unoccluded light point spheres ->
  fgt specular (of_Z (-1)) = true ->
  feq (vector3.Vector3_Length
         (ReflectRay (vector3.Sub (position light) point) normal)) zero = false ->
  feq (vector3.Vector3_Length inverseDir) zero = false ->
  Light_ComputeLighting Exp Log light point normal inverseDir specular spheres
  = Ret (math.Max zero
           (fadd (fadd zero (diffuseTerm light point normal))
                 (term Exp Log light point normal inverseDir specular))).

(** The intersection point and the normal [TraceRay] computes at a hit. *)
Definition hitPoint (startPoint direction : Vec3) (closestT : float) : Vec3 :=
  vector3.Add startPoint (vector3.Vector3_MulScalar direction closestT).

Definition hitNormal (startPoint direction : Vec3) (closestSphere : Sphere)
    (closestT : float) : Vec3 :=
  vector3.Vector3_Normalize
    (vector3.Sub (hitPoint startPoint direction closestT) (center closestSphere)).

(** The locally shaded color of a hit: the sphere's color scaled by the
    summed light value capped at [MaxIntensity]. *)
Definition localShade (closestSphere : Sphere) (lightVal : float) : Color :=
  scaleRGB (color closestSphere) (math.Min MaxIntensity lightVal).

(** The recursive call of [TraceRay] for the reflected ray at a hit. *)
Definition reflectedTrace (Exp Log : float -> float) (fuel : nat)
    (startPoint direction : Vec3) (spheres : list Sphere) (lights : list Light)
    (recursionDepth : Z) (tMax : float) (closestSphere : Sphere) (closestT : float)
  : option (list string * outcome Color) :=
  let normal := hitNormal startPoint direction closestSphere closestT in
  TraceRay Exp Log fuel (hitPoint startPoint direction closestT)
    (ReflectRay (vector3.Vector3_Negate direction) normal)
    spheres lights (int8 (recursionDepth - 1)) Epsilon tMax.

(** The light value summed at a hit. *)
Definition hitLighting (Exp Log : float -> float)
    (startPoint direction : Vec3) (spheres : list Sphere) (lights : list Light)
    (closestSphere : Sphere) (closestT : float) : outcome float :=
  sumLighting Exp Log lights (hitPoint startPoint direction closestT)
    (hitNormal startPoint direction closestSphere closestT)
    (vector3.Vector3_Negate direction) (specular closestSphere) spheres zero.

(** The R, G and B channels are uint8 values. *)
Definition rgb_in_range (c : Color) : Prop :=
  0 <= R c < 256 /\ 0 <= G c < 256 /\ 0 <= B c < 256.

Arguments fadd : simpl never.
Arguments fsub : simpl never.
Arguments fmul : simpl never.
Arguments fdiv : simpl never.
Arguments of_Z : simpl never.
Arguments to_uint8 : simpl never.
Arguments math.Sqrt : simpl never.
Arguments math.Pow : simpl never.
Arguments math.Max : simpl never.
Arguments math.Min : simpl never.
Arguments vector3.Dot : simpl never.
Arguments vector3.Vector3_Length : simpl never.
Arguments Sphere_IsNull : simpl never.
Arguments Sphere_ComputeIntersection : simpl never.
Arguments Light_ComputeLighting : simpl never.

(** The lines [TraceRay] prints before it searches for a hit. *)
Definition warningLog (direction : Vec3) : list string :=
  if feq (vector3.Vector3_Length direction) zero
  then [zero_direction_warning] else [].

(** A float64 value proper: a finite [spec_float] must have its mantissa
    and exponent in the canonical form of binary64. *)
Definition is_binary64 (x : float) : bool := valid_binary prec emax x.

Definition Vec3_is_binary64 (v : Vec3) : bool :=
  is_binary64 (vector3.X v) && is_binary64 (vector3.Y v)
  && is_binary64 (vector3.Z v).

(** What is said of [ComputeLighting]'s clamp: a returned intensity is not
    negative. *)
Definition never_negative (Exp Log : float -> float) (light : Light)
    (point normal inverseDir : Vec3) (specular : float) (spheres : list Sphere)
  : Prop :=
  forall v,
    Light_ComputeLighting Exp Log light point normal inverseDir specular spheres
    = Ret v ->
    flt v zero = false.

(** What is said of shadows: a blocked point light contributes exactly 0. *)
Definition shadow_claim (Exp Log : float -> float) (light : Light)
    (point normal inverseDir : Vec3) (specular : float) (spheres : list Sphere)
  : Prop :=
  lightType light = Point ->
  blocked light point spheres ->
  Light_ComputeLighting Exp Log light point normal inverseDir specular spheres
  = Ret zero.

(** What is said of a zero-length direction: [TraceRay] prints the warning,
    goes on and returns a color. *)
Definition warns_and_continues (Exp Log : float -> float) (fuel : nat)
    (startPoint direction : Vec3) (spheres : list Sphere) (lights : list Light)
    (recursionDepth : Z) (tMin tMax : float) : Prop :=
  feq (vector3.Vector3_Length direction) zero = true ->
  exists out c,
    TraceRay Exp Log fuel startPoint direction spheres lights recursionDepth
      tMin tMax = Some (out, Ret c)
    /\ In zero_direction_warning out.

(** ** Concrete inputs *)

(** A stand-in for [Exp] and [Log] in closed examples; their exponents
    are integers, for which [Pow] calls neither. *)
Definition unused_transcendental (x : float) : float := NaN.

Definition vec (x y z : Z) : Vec3 := vector3.mkVector3 (of_Z x) (of_Z y) (of_Z z).

(** A ray and a sphere whose first root is exactly [MaxFloat64]: the ray
    starts at the sphere's centre with direction (2^-520, 0, 0), so
    a = 2^-1040, b = 0, and the radius (2^53 - 1) * 2^451 gives
    c = -(2^53 - 2) * 2^955, discriminant (2^53 - 2) * 2^-83,
    square root (2^53 - 1) * 2^-68 and t1 = (2^53 - 1) * 2^971. *)
Definition boundary_direction : Vec3 :=
  vector3.mkVector3 (S754_finite false 4503599627370496 (-572)) zero zero.

Definition boundary_sphere : Sphere :=
  mkSphere (S754_finite false 9007199254740991 451)
    (vector3.mkVector3 zero zero zero) (mkColor 255 0 0 255) (of_Z (-1)) zero.

(** A point light of intensity 1 on the z axis, straight above the surface
    point (0, 0, 1) whose normal is (0, 0, 1). *)
Definition light_above : Light := mkLight Point (vec 0 0 2) (of_Z 1).

(** An ambient light configured with a negative intensity. *)
Definition dark_ambient : Light := mkLight Ambient (vec 0 0 0) (of_Z (-1)).

(** A sphere of radius 2^-10 centred at the origin: a real sphere, and
    within [Epsilon] of the null sphere in radius and centre. *)
Definition tiny_sphere : Sphere :=
  mkSphere (of_ratio 1 1024) (vec 0 0 0) (mkColor 255 255 255 255) (of_Z (-1)) zero.

(** A point light at (0, 0, 1); seen from (0, 0, -1) it is behind
    [tiny_sphere]. *)
Definition light_behind : Light := mkLight Point (vec 0 0 1) (of_Z 1).

(** A sphere of radius 1/4 centred at (0, 0, -1/2): seen from (0, 0, -1)
    it stands before [tiny_sphere] on the way to [light_behind]. *)
Definition near_sphere : Sphere :=
  mkSphere (of_ratio 1 4) (vector3.mkVector3 zero zero (of_ratio (-1) 2))
    (mkColor 255 255 255 255) (of_Z (-1)) zero.

(** A sphere of radius 1/2 centred at the origin. *)
Definition half_sphere : Sphere :=
  mkSphere (of_ratio 1 2) (vec 0 0 0) (mkColor 255 255 255 255) (of_Z (-1)) zero.

(** A perfect mirror: a unit sphere at (0, 0, 3) with reflective = 1. *)
Definition mirror_sphere : Sphere :=
  mkSphere (of_Z 1) (vec 0 0 3) (mkColor 200 100 50 255) (of_Z 10) one.

(** ** The render driver of [main] *)

(** The image is w by h pixels; [main] fixes both at 2048. *)
Definition main_w : Z := 2048.
Definition main_h : Z := 2048.

(** Go's [int] on the 64-bit targets. *)
Definition int64 (n : Z) : Z := (n + 9223372036854775808) mod 18446744073709551616 - 9223372036854775808.

(** The rows worker [i] visits: [for row := i; row < h; row += cpus].
    [None] means the fuel ran out before the loop ended. *)
Fixpoint worker_rows (fuel : nat) (row cpus h : Z) : option (list Z) :=
  match fuel with
  | O => None
  | S fuel' =>
      if row <? h then
        match worker_rows fuel' (int64 (row + cpus)) cpus h with
        | Some rows => Some (row :: rows)
        | None => None
        end
      else Some []
  end.

(** The columns of one row: [for col := 0; col < w; col++]. *)
Definition row_cols (w : Z) : list Z := map Z.of_nat (seq 0 (Z.to_nat w)).

(** The pixels worker [i] sets with [img.Set(row, col, clr)], in order. *)
Definition worker_pixels (fuel : nat) (i cpus w h : Z) : option (list (Z * Z)) :=
  match worker_rows fuel i cpus h with
  | Some rows => Some (flat_map (fun row => map (fun col => (row, col)) (row_cols w)) rows)
  | None => None
  end.

(** ** More vocabulary *)

(** The sign bit is clear, or the value is NaN. *)
Definition not_negative (x : float) : bool :=
  match x with
  | S754_nan => true
  | _ => negb (signbit x)
  end.

Definition Vec3_is_finite (v : Vec3) : bool :=
  is_finite (vector3.X v) && is_finite (vector3.Y v) && is_finite (vector3.Z v).

Definition Vec3_has_nan (v : Vec3) : bool :=
  is_nan (vector3.X v) || is_nan (vector3.Y v) || is_nan (vector3.Z v).

Definition Vec3_zero : Vec3 := vector3.mkVector3 zero zero zero.

(** The sphere [s] with its radius negated. *)
Definition negate_radius (s : Sphere) : Sphere :=
  mkSphere (fneg (radius s)) (center s) (color s) (specular s) (reflective s).

(** The two messages the kernel panics with. *)
Definition intersection_panic : string := "ComputeIntersection: Division by zero".
Definition lighting_panic : string := "ComputeLighting: Division by zero".
(** ** The order of binary64 *)

Ltac cmp_cases :=
  repeat match goal with
  | |- context [Pos.compare_cont Eq ?a ?b] =>
      change (Pos.compare_cont Eq a b) with (Pos.compare a b)
  | H : context [Pos.compare_cont Eq ?a ?b] |- _ =>
      change (Pos.compare_cont Eq a b) with (Pos.compare a b) in H
  | |- context [Z.compare ?a ?b] => destruct (Z.compare_spec a b)
  | H : context [Z.compare ?a ?b] |- _ => destruct (Z.compare_spec a b)
  | |- context [Pos.compare ?a ?b] => destruct (Pos.compare_spec a b)
  | H : context [Pos.compare ?a ?b] |- _ => destruct (Pos.compare_spec a b)
  end.

Ltac by_float_cases :=
  simpl; try discriminate;
  repeat match goal with s : bool |- _ => destruct s end;
  try discriminate; try reflexivity; intros;
  cmp_cases; simpl in *; try discriminate; try reflexivity; subst; try lia.

Lemma SFcompare_lt_trans x y z :
  SFcompare x y = Some Lt -> SFcompare y z = Some Lt -> SFcompare x z = Some Lt.
Proof.
  destruct x as [sx|sx| |sx mx ex], y as [sy|sy| |sy my ey],
           z as [sz|sz| |sz mz ez]; by_float_cases.
Qed.

Lemma SFcompare_lt_eq_trans x y z :
  SFcompare x y = Some Lt -> SFcompare y z = Some Eq -> SFcompare x z = Some Lt.
Proof.
  destruct x as [sx|sx| |sx mx ex], y as [sy|sy| |sy my ey],
           z as [sz|sz| |sz mz ez]; by_float_cases.
Qed.

Lemma SFcompare_eq_lt_trans x y z :
  SFcompare x y = Some Eq -> SFcompare y z = Some Lt -> SFcompare x z = Some Lt.
Proof.
  destruct x as [sx|sx| |sx mx ex], y as [sy|sy| |sy my ey],
           z as [sz|sz| |sz mz ez]; by_float_cases.
Qed.

Lemma SFcompare_swap x y c :
  SFcompare x y = Some c -> SFcompare y x = Some (CompOpp c).
Proof.
  intros H.
  destruct x as [sx|sx| |sx mx ex], y as [sy|sy| |sy my ey];
    simpl in *; try discriminate;
    repeat match goal with s : bool |- _ => destruct s end;
    injection H as <-; try reflexivity;
    cmp_cases; simpl in *; try discriminate; try reflexivity; subst; try lia.
Qed.

Lemma SFcompare_None x y :
  SFcompare x y = None -> is_nan x = true \/ is_nan y = true.
Proof.
  destruct x as [sx|sx| |sx mx ex], y as [sy|sy| |sy my ey]; simpl; auto;
    try discriminate; destruct sx; discriminate.
Qed.

Lemma flt_trans x y z : flt x y = true -> flt y z = true -> flt x z = true.
Proof.
  unfold flt, SFltb. intros H1 H2.
  destruct (SFcompare x y) as [[]|] eqn:E1; try discriminate.
  destruct (SFcompare y z) as [[]|] eqn:E2; try discriminate.
  now rewrite (SFcompare_lt_trans _ _ _ E1 E2).
Qed.

Lemma flt_fle_trans x y z : flt x y = true -> fle y z = true -> flt x z = true.
Proof.
  unfold flt, fle, SFltb, SFleb. intros H1 H2.
  destruct (SFcompare x y) as [[]|] eqn:E1; try discriminate.
  destruct (SFcompare y z) as [[]|] eqn:E2; try discriminate.
  - now rewrite (SFcompare_lt_eq_trans _ _ _ E1 E2).
  - now rewrite (SFcompare_lt_trans _ _ _ E1 E2).
Qed.

Lemma fle_flt_trans x y z : fle x y = true -> flt y z = true -> flt x z = true.
Proof.
  unfold flt, fle, SFltb, SFleb. intros H1 H2.
  destruct (SFcompare y z) as [[]|] eqn:E2; try discriminate.
  destruct (SFcompare x y) as [[]|] eqn:E1; try discriminate.
  - now rewrite (SFcompare_eq_lt_trans _ _ _ E1 E2).
  - now rewrite (SFcompare_lt_trans _ _ _ E1 E2).
Qed.

Lemma flt_fle x y : flt x y = true -> fle x y = true.
Proof.
  unfold flt, fle, SFltb, SFleb. now destruct (SFcompare x y) as [[]|].
Qed.

Lemma fle_not_nan x y : fle x y = true -> is_nan x = false /\ is_nan y = false.
Proof.
  unfold fle, SFleb. destruct x, y; simpl; auto; discriminate.
Qed.

Lemma not_flt_fle x y :
  is_nan x = false -> is_nan y = false -> flt x y = false -> fle y x = true.
Proof.
  unfold flt, fle, SFltb, SFleb. intros Hx Hy H.
  destruct (SFcompare x y) as [c|] eqn:E.
  - rewrite (SFcompare_swap _ _ _ E). now destruct c.
  - destruct (SFcompare_None _ _ E); congruence.
Qed.

Lemma in_interval_not_nan tMin tMax t :
  in_interval tMin tMax t = true -> is_nan t = false.
Proof.
  unfold in_interval. intros H. apply andb_true_iff in H as [_ H].
  now apply fle_not_nan in H.
Qed.

(** ** ComputeIntersection *)

Lemma ComputeIntersection_returns s startPoint direction :
  feq (vector3.Dot direction direction) zero = false ->
  exists t1 t2, Sphere_ComputeIntersection s startPoint direction = Ret (t1, t2).
Proof.
  intros Ha. unfold Sphere_ComputeIntersection. rewrite Ha.
  match goal with |- context [if ?c then _ else _] => destruct c end; eauto.
Qed.

Lemma ComputeIntersection_panics s startPoint direction :
  feq (vector3.Dot direction direction) zero = true ->
  Sphere_ComputeIntersection s startPoint direction
  = Panic "ComputeIntersection: Division by zero".
Proof. intros Ha. unfold Sphere_ComputeIntersection. now rewrite Ha. Qed.

Lemma ComputeIntersection_Ret_nonzero s startPoint direction ts :
  Sphere_ComputeIntersection s startPoint direction = Ret ts ->
  feq (vector3.Dot direction direction) zero = false.
Proof.
  unfold Sphere_ComputeIntersection.
  destruct (feq (vector3.Dot direction direction) zero); [discriminate | reflexivity].
Qed.

Lemma candidate_nonzero s startPoint direction r :
  candidate s startPoint direction r ->
  feq (vector3.Dot direction direction) zero = false.
Proof.
  intros (t1 & t2 & H & _). eapply ComputeIntersection_Ret_nonzero, H.
Qed.

(** A value [ComputeIntersection] returns is a root, or the -1 it returns
    for a negative discriminant. *)
Lemma candidate_root_or_minus_one s startPoint direction t :
  candidate s startPoint direction t ->
  root s startPoint direction t \/ t = of_Z (-1).
Proof.
  intros Hc. destruct (flt (discriminant s startPoint direction) zero) eqn:Hd.
  - right. destruct Hc as (t1 & t2 & HI & Ht).
    unfold Sphere_ComputeIntersection in HI.
    destruct (feq (vector3.Dot direction direction) zero); [discriminate|].
    unfold discriminant in Hd. rewrite Hd in HI.
    injection HI as <- <-. now destruct Ht.
  - left. split; assumption.
Qed.

Lemma root_candidate s startPoint direction t :
  root s startPoint direction t -> candidate s startPoint direction t.
Proof. now intros [_ H]. Qed.

(** Inside an interval that does not contain -1, the values returned are
    roots. *)
Lemma candidate_in_interval_root s startPoint direction tMin tMax t :
  in_interval tMin tMax (of_Z (-1)) = false ->
  candidate s startPoint direction t ->
  in_interval tMin tMax t = true ->
  root s startPoint direction t.
Proof.
  intros Hm Hc Hi.
  destruct (candidate_root_or_minus_one _ _ _ _ Hc) as [Hr| ->];
    [exact Hr | congruence].
Qed.

(** A root written out: the direction has a squared length other than 0,
    the discriminant is not negative, and [t] is (-b + sqrt D) / 2a or
    (-b - sqrt D) / 2a, in the arithmetic of the code. *)
Lemma root_formula s startPoint direction t :
  root s startPoint direction t <->
  let a := vector3.Dot direction direction in
  let b := fmul (of_Z 2)
             (vector3.Dot (vector3.Vector3_Sub startPoint (center s)) direction) in
  let D := discriminant s startPoint direction in
  feq a zero = false
  /\ flt D zero = false
  /\ (t = fdiv (fadd (fneg b) (math.Sqrt D)) (fmul (of_Z 2) a)
      \/ t = fdiv (fsub (fneg b) (math.Sqrt D)) (fmul (of_Z 2) a)).
Proof.
  unfold root, candidate, Sphere_ComputeIntersection, discriminant. cbv zeta.
  split.
  - intros (Hd & t1 & t2 & HI & Ht).
    destruct (feq (vector3.Dot direction direction) zero); [discriminate|].
    rewrite Hd in HI. injection HI as <- <-. auto.
  - intros (Ha & Hd & Ht). split; [exact Hd|].
    rewrite Ha, Hd. eexists _, _. split; [reflexivity | exact Ht].
Qed.

Lemma fle_refl x : is_nan x = false -> fle x x = true.
Proof.
  unfold fle, SFleb. destruct x as [s|s| |s m e]; simpl; try discriminate;
    destruct s; intros _; try reflexivity;
    rewrite Z.compare_refl;
    change (Pos.compare_cont Eq m m) with (Pos.compare m m);
    now rewrite Pos.compare_refl.
Qed.

(** ** FindClosest *)

Lemma closer_split tMin tMax closestT t :
  closer tMin tMax closestT t = in_interval tMin tMax t && flt t closestT.
Proof. reflexivity. Qed.

Lemma closer_true tMin tMax closestT t :
  closer tMin tMax closestT t = true ->
  in_interval tMin tMax t = true /\ flt t closestT = true.
Proof. rewrite closer_split. apply andb_true_iff. Qed.

(** A value inside the interval that is not closer than [closestT] is at
    least [closestT]. *)
Lemma not_closer_fle tMin tMax closestT t :
  is_nan closestT = false ->
  closer tMin tMax closestT t = false ->
  in_interval tMin tMax t = true -> fle closestT t = true.
Proof.
  intros Hn Hc Hi. rewrite closer_split, Hi in Hc. simpl in Hc.
  apply not_flt_fle; auto. eapply in_interval_not_nan, Hi.
Qed.

Lemma candidate_of_head sphere startPoint direction t1 t2 r :
  Sphere_ComputeIntersection sphere startPoint direction = Ret (t1, t2) ->
  candidate sphere startPoint direction r -> r = t1 \/ r = t2.
Proof.
  intros H (u1 & u2 & Hu & Hr). rewrite H in Hu. now injection Hu as <- <-.
Qed.

(** One iteration of the loop: the pair is kept, or replaced by the head
    sphere with the smaller of its two values that lie inside the interval. *)
Lemma FindClosest_loop_head startPoint direction tMin tMax sphere rest cs ct t1 t2 :
  Sphere_ComputeIntersection sphere startPoint direction = Ret (t1, t2) ->
  is_nan ct = false ->
  exists cs1 ct1,
    FindClosest_loop startPoint direction (sphere :: rest) tMin tMax cs ct
    = FindClosest_loop startPoint direction rest tMin tMax cs1 ct1
    /\ ((cs1 = cs /\ ct1 = ct
         /\ closer tMin tMax ct t1 = false /\ closer tMin tMax ct t2 = false)
        \/ (cs1 = sphere /\ (ct1 = t1 \/ ct1 = t2)
            /\ in_interval tMin tMax ct1 = true /\ flt ct1 ct = true
            /\ (in_interval tMin tMax t1 = true -> fle ct1 t1 = true)
            /\ (in_interval tMin tMax t2 = true -> fle ct1 t2 = true))).
Proof.
  intros HI Hn. cbn [FindClosest_loop]. rewrite HI. cbn [bind].
  destruct (closer tMin tMax ct t1) eqn:C1.
  - apply closer_true in C1 as [I1 L1].
    pose proof (in_interval_not_nan _ _ _ I1) as N1.
    destruct (closer tMin tMax t1 t2) eqn:C2.
    + apply closer_true in C2 as [I2 L2].
      exists sphere, t2. split; [reflexivity|]. right.
      repeat split; auto.
      * eapply flt_trans; eauto.
      * intros _. now apply flt_fle.
      * intros _. apply fle_refl. eapply in_interval_not_nan, I2.
    + exists sphere, t1. split; [reflexivity|]. right.
      repeat split; auto.
      * intros _. now apply fle_refl.
      * intros I2. eapply not_closer_fle; eauto.
  - destruct (closer tMin tMax ct t2) eqn:C2.
    + apply closer_true in C2 as [I2 L2].
      exists sphere, t2. split; [reflexivity|]. right.
      repeat split; auto.
      * intros I1. apply flt_fle. eapply flt_fle_trans; [exact L2|].
        eapply not_closer_fle; eauto.
      * intros _. apply fle_refl. eapply in_interval_not_nan, I2.
    + exists cs, ct. split; [reflexivity|]. left. auto.
Qed.

(** The loop from any pair whose t is not NaN: the pair is returned as it
    was and no value is closer, or a closest value below the initial t is
    returned. *)
Lemma FindClosest_loop_spec startPoint direction tMin tMax :
  feq (vector3.Dot direction direction) zero = false ->
  forall spheres cs ct, is_nan ct = false ->
  exists s t,
    FindClosest_loop startPoint direction spheres tMin tMax cs ct = Ret (s, t)
    /\ ((s = cs /\ t = ct
         /\ forall s' r, In s' spheres -> candidate s' startPoint direction r ->
              closer tMin tMax ct r = false)
        \/ (closest_candidate startPoint direction spheres tMin tMax s t
            /\ flt t ct = true)).
Proof.
  intros Ha. induction spheres as [|sphere rest IH]; intros cs ct Hn.
  - exists cs, ct. split; [reflexivity|]. left. repeat split; auto.
    intros s' r [].
  - destruct (ComputeIntersection_returns sphere startPoint _ Ha) as (t1 & t2 & HI).
    destruct (FindClosest_loop_head startPoint direction tMin tMax sphere rest
                cs ct t1 t2 HI Hn) as (cs1 & ct1 & -> & Hhead).
    assert (Hn1 : is_nan ct1 = false).
    { destruct Hhead as [(_ & -> & _)|(_ & _ & Hi & _)]; auto.
      eapply in_interval_not_nan, Hi. }
    destruct (IH cs1 ct1 Hn1) as (s & t & -> & Hrest).
    exists s, t. split; [reflexivity|].
    destruct Hhead as [(-> & -> & C1 & C2)|(-> & Hct1 & Hi1 & Hl1 & F1 & F2)].
    + (* the head changed nothing *)
      destruct Hrest as [(-> & -> & Hnone)|((i & Hnth & Hroot & Hi & Hall & Hbefore) & Hlt)].
      * left. repeat split; auto.
        intros s' r [<-|Hin] Hr; [|eauto].
        destruct (candidate_of_head _ _ _ _ _ _ HI Hr) as [->| ->]; auto.
      * right. split; [|exact Hlt].
        assert (Hhd : forall r, candidate sphere startPoint direction r ->
                  in_interval tMin tMax r = true -> flt t r = true).
        { intros r Hr Hir. eapply flt_fle_trans; [exact Hlt|].
          destruct (candidate_of_head _ _ _ _ _ _ HI Hr) as [->| ->];
            eapply not_closer_fle; eauto. }
        exists (S i). repeat split; auto.
        -- intros [|j] s' r Hj Hr Hir; cbn in Hj.
           ++ injection Hj as <-. apply flt_fle. auto.
           ++ eauto.
        -- intros [|j] s' r Hlt' Hj Hr Hir; cbn in Hj.
           ++ injection Hj as <-. auto.
           ++ eapply Hbefore; eauto. lia.
    + (* the head became the closest pair *)
      assert (Hhd : forall r, candidate sphere startPoint direction r ->
                in_interval tMin tMax r = true -> fle ct1 r = true).
      { intros r Hr Hir.
        destruct (candidate_of_head _ _ _ _ _ _ HI Hr) as [->| ->]; auto. }
      assert (Hroot1 : candidate sphere startPoint direction ct1).
      { exists t1, t2. auto. }
      destruct Hrest as [(-> & -> & Hnone)|((i & Hnth & Hroot & Hi & Hall & Hbefore) & Hlt)].
      * right. split; [|exact Hl1].
        exists O. repeat split; auto.
        -- intros [|j] s' r Hj Hr Hir; cbn in Hj.
           ++ injection Hj as <-. auto.
           ++ eapply not_closer_fle; eauto.
              eapply Hnone; eauto. eapply nth_error_In, Hj.
        -- intros j s' r Hlt'. lia.
      * right. split; [|eapply flt_trans; eauto].
        exists (S i). repeat split; auto.
        -- intros [|j] s' r Hj Hr Hir; cbn in Hj.
           ++ injection Hj as <-. apply flt_fle.
              eapply flt_fle_trans; [exact Hlt|]. auto.
           ++ eauto.
        -- intros [|j] s' r Hlt' Hj Hr Hir; cbn in Hj.
           ++ injection Hj as <-. eapply flt_fle_trans; [exact Hlt|]. auto.
           ++ eapply Hbefore; eauto. lia.
Qed.

(** When no value is closer than the initial t, the loop returns the pair
    it started from. *)
Lemma FindClosest_loop_unchanged startPoint direction tMin tMax cs ct :
  forall spheres,
  (forall s, In s spheres ->
     exists t1 t2,
       Sphere_ComputeIntersection s startPoint direction = Ret (t1, t2)
       /\ closer tMin tMax ct t1 = false /\ closer tMin tMax ct t2 = false) ->
  FindClosest_loop startPoint direction spheres tMin tMax cs ct = Ret (cs, ct).
Proof.
  induction spheres as [|sphere rest IH]; intros H; [reflexivity|].
  destruct (H sphere (or_introl eq_refl)) as (t1 & t2 & HI & C1 & C2).
  cbn [FindClosest_loop]. rewrite HI. cbn [bind]. rewrite C1, C2.
  apply IH. intros s Hs. apply H. now right.
Qed.

(** With a direction of squared length 0 the first sphere already panics. *)
Lemma FindClosest_loop_panics startPoint direction tMin tMax sphere rest cs ct :
  feq (vector3.Dot direction direction) zero = true ->
  FindClosest_loop startPoint direction (sphere :: rest) tMin tMax cs ct
  = Panic "ComputeIntersection: Division by zero".
Proof.
  intros Ha. cbn [FindClosest_loop].
  now rewrite (ComputeIntersection_panics _ _ _ Ha).
Qed.

Lemma MaxFloat64_not_nan : is_nan math.MaxFloat64 = false.
Proof. reflexivity. Qed.

Lemma IsNull_nullSphere : Sphere_IsNull nullSphere = true.
Proof. reflexivity. Qed.

(** Where -1 is outside the interval, what the loop selects is a closest
    hit. *)
Lemma closest_candidate_hit startPoint direction spheres tMin tMax s t :
  in_interval tMin tMax (of_Z (-1)) = false ->
  closest_candidate startPoint direction spheres tMin tMax s t ->
  closest_hit startPoint direction spheres tMin tMax s t.
Proof.
  intros Hm (i & Hnth & Hc & Hi & Hall & Hbefore).
  exists i. split; [exact Hnth|].
  split; [exact (candidate_in_interval_root _ _ _ _ _ _ Hm Hc Hi)|].
  split; [exact Hi|]. split.
  - intros j s' r Hj Hr. apply (Hall j s' r Hj), root_candidate, Hr.
  - intros j s' r Hlt Hj Hr. apply (Hbefore j s' r Hlt Hj), root_candidate, Hr.
Qed.

(** C1 (as amended).  For a direction whose squared length is not 0 (or
    an empty scene) and an interval that does not contain -1, FindClosest
    returns, having examined both roots of every sphere:
    either a closest hit - a sphere of the scene with a root t in
    [tMin, tMax], smaller than or equal to every root of every sphere in
    [tMin, tMax], strictly smaller than every such root of the spheres
    before it in scene order, and below MaxFloat64 - or, when no root in
    [tMin, tMax] is below MaxFloat64, the null sphere with MaxFloat64.
    (-1 is what ComputeIntersection returns, twice, for a sphere without
    real root; inside the interval it would be taken for a root.) *)
Theorem FindClosest_smallest_root_below_max startPoint direction spheres tMin tMax :
  feq (vector3.Dot direction direction) zero = false \/ spheres = [] ->
  in_interval tMin tMax (of_Z (-1)) = false ->
  exists s t,
    FindClosest startPoint direction spheres tMin tMax = Ret (s, t)
    /\ ((closest_hit startPoint direction spheres tMin tMax s t
         /\ flt t math.MaxFloat64 = true)
        \/ no_hit (below_max tMin tMax) startPoint direction spheres s t).
Proof.
  intros [Ha| ->] Hm.
  2:{ exists nullSphere, math.MaxFloat64. split; [reflexivity|]. right.
      repeat split. intros s' r []. }
  destruct (FindClosest_loop_spec startPoint direction tMin tMax Ha spheres
              nullSphere math.MaxFloat64 MaxFloat64_not_nan)
    as (s & t & Heq & [(-> & -> & Hnone)|[Hhit Hlt]]).
  - exists nullSphere, math.MaxFloat64. split; [exact Heq|]. right.
    repeat split. intros s' r Hin Hr.
    exact (Hnone s' r Hin (root_candidate _ _ _ _ Hr)).
  - exists s, t. split; [exact Heq|]. left. split; [|exact Hlt].
    now apply closest_candidate_hit.
Qed.

Lemma FindClosest_smallest_root_below_max_witness :
  exists s t,
    FindClosest main_start (main_rayDirection 1024 1024) main_spheres
      (of_Z 1) math.MaxFloat64 = Ret (s, t)
    /\ ((closest_hit main_start (main_rayDirection 1024 1024) main_spheres
           (of_Z 1) math.MaxFloat64 s t
         /\ flt t math.MaxFloat64 = true)
        \/ no_hit (below_max (of_Z 1) math.MaxFloat64) main_start
             (main_rayDirection 1024 1024) main_spheres s t).
Proof.
  apply (FindClosest_smallest_root_below_max main_start
           (main_rayDirection 1024 1024) main_spheres (of_Z 1) math.MaxFloat64).
  - left. reflexivity.
  - reflexivity.
Defined.

(** C1 as stated fails, in two ways.  The sphere [boundary_sphere] has the
    root MaxFloat64, which lies in [1, MaxFloat64], and yet FindClosest
    returns the null sphere, because the comparison with the initial
    closest t is strict.  And the first sphere of [main], which the camera
    ray of pixel (1024, 10) does not meet (negative discriminant), is
    returned at t = -1 when the interval is [-2, MaxFloat64]. *)
Lemma FindClosest_not_the_smallest_root :
  ~ FindClosest_claim in_interval main_start boundary_direction
      [boundary_sphere] one math.MaxFloat64
  /\ ~ FindClosest_claim in_interval main_start (main_rayDirection 1024 10)
        [hd nullSphere main_spheres] (of_Z (-2)) math.MaxFloat64.
Proof.
  split; intros H.
  - assert (E : FindClosest main_start boundary_direction [boundary_sphere]
                  one math.MaxFloat64 = Ret (nullSphere, math.MaxFloat64))
      by (vm_compute; reflexivity).
    destruct (H _ _ E) as [(i & Hnth & _)|(_ & _ & Hno)].
    + destruct i as [|[|i]]; cbn in Hnth; discriminate.
    + assert (Hr : root boundary_sphere main_start boundary_direction
                     math.MaxFloat64).
      { split; [vm_compute; reflexivity|].
        exists math.MaxFloat64, (fneg math.MaxFloat64).
        split; [vm_compute; reflexivity | now left]. }
      specialize (Hno boundary_sphere math.MaxFloat64 (or_introl eq_refl) Hr).
      vm_compute in Hno. discriminate.
  - assert (E : FindClosest main_start (main_rayDirection 1024 10)
                  [hd nullSphere main_spheres] (of_Z (-2)) math.MaxFloat64
                = Ret (hd nullSphere main_spheres, of_Z (-1)))
      by (vm_compute; reflexivity).
    destruct (H _ _ E) as [(i & _ & [Hd _] & _)|(Hs & _)].
    + vm_compute in Hd. discriminate.
    + discriminate Hs.
Qed.

(** ** ComputeLighting *)

Lemma Max_zero_not_negative x : flt (math.Max zero x) zero = false.
Proof.
  destruct x as [s|s| |s m e]; try (destruct s); reflexivity.
Qed.

Section LightingFacts.
Variables Exp Log : float -> float.

Lemma ComputeLighting_ambient light point normal inverseDir specular spheres :
  lightType light = Ambient ->
  Light_ComputeLighting Exp Log light point normal inverseDir specular spheres
  = Ret (intensity light).
Proof. intros H. unfold Light_ComputeLighting. now rewrite H. Qed.

(** A point light: the shadow test, then the two terms. *)
Lemma ComputeLighting_point light point normal inverseDir specular spheres :
  lightType light = Point ->
  Light_ComputeLighting Exp Log light point normal inverseDir specular spheres
  = '(closestSphere, _) <-
      FindClosest point (vector3.Sub (position light) point) spheres Epsilon one ;;
    if Sphere_IsNull closestSphere then
      if fgt specular (of_Z (-1)) then
        if feq (vector3.Vector3_Length
                  (ReflectRay (vector3.Sub (position light) point) normal)) zero
           || feq (vector3.Vector3_Length inverseDir) zero
        then Panic "ComputeLighting: Division by zero"
        else Ret (math.Max zero
                    (fadd (fadd zero (diffuseTerm light point normal))
                          (specularTerm Exp Log light point normal inverseDir
                             specular)))
      else Ret (math.Max zero (fadd zero (diffuseTerm light point normal)))
    else Ret (math.Max zero zero).
Proof. intros H. unfold Light_ComputeLighting. now rewrite H. Qed.

(** Every return other than the ambient one goes through [Max(0, _)]. *)
Lemma ComputeLighting_clamp light point normal inverseDir specular spheres v :
  lightType light <> Ambient ->
  Light_ComputeLighting Exp Log light point normal inverseDir specular spheres
  = Ret v ->
  exists x, v = math.Max zero x.
Proof.
  intros Hk. unfold Light_ComputeLighting.
  destruct (lightType light =? Ambient) eqn:E;
    [apply Z.eqb_eq in E; contradiction|].
  destruct (lightType light =? Point);
    (destruct (FindClosest _ _ _ _ _) as [[s t]|msg]; cbn [bind];
     [|discriminate];
     destruct (Sphere_IsNull s);
     [destruct (fgt specular (of_Z (-1)));
      [match goal with |- context [if ?c then Panic _ else _] => destruct c end;
       [discriminate|]|]|];
     intros H; injection H as <-; eauto).
Qed.
End LightingFacts.

(** C3 (as amended).  For an unoccluded point light with
    specularExponent > -1 and non-zero lengths of the reflected light
    direction and of the inverse view direction, ComputeLighting returns
    max(0, diffuse + specular) where the specular contribution is
    intensity * (max(0, dot(reflect, inverseView)) / (|reflect| * |inverseView|))
    ^ specularExponent: the division by the two lengths comes first and the
    exponent is applied to the quotient. *)
Theorem ComputeLighting_specular_quotient_powered
    Exp Log light point normal inverseDir specular spheres :
  lightType light = Point ->
  unoccluded light point spheres ->
  fgt specular (of_Z (-1)) = true ->
  feq (vector3.Vector3_Length
         (ReflectRay (vector3.Sub (position light) point) normal)) zero = false ->
  feq (vector3.Vector3_Length inverseDir) zero = false ->
  Light_ComputeLighting Exp Log light point normal inverseDir specular spheres
  = Ret (math.Max zero
           (fadd (fadd zero (diffuseTerm light point normal))
                 (specularTerm Exp Log light point normal inverseDir specular))).
Proof.
  intros Hk (s & t & Hfind & Hnull) Hs Hr Hv.
  rewrite (ComputeLighting_point Exp Log _ _ _ _ _ _ Hk), Hfind.
  cbn [bind]. now rewrite Hnull, Hs, Hr, Hv.
Qed.

Lemma ComputeLighting_specular_quotient_powered_witness :
  Light_ComputeLighting unused_transcendental unused_transcendental
    light_above (vec 0 0 1) (vec 0 0 1) (vec 0 3 4) (of_Z 2) []
  = Ret (math.Max zero
           (fadd (fadd zero (diffuseTerm light_above (vec 0 0 1) (vec 0 0 1)))
                 (specularTerm unused_transcendental unused_transcendental
                    light_above (vec 0 0 1) (vec 0 0 1) (vec 0 3 4) (of_Z 2)))).
Proof.
  apply (ComputeLighting_specular_quotient_powered
           unused_transcendental unused_transcendental
           light_above (vec 0 0 1) (vec 0 0 1) (vec 0 3 4) (of_Z 2) []).
  - reflexivity.
  - exists nullSphere, math.MaxFloat64. split; reflexivity.
  - reflexivity.
  - reflexivity.
  - reflexivity.
Defined.

(** C3 as stated fails: with the light straight above the point (0, 0, 1),
    inverse view direction (0, 0, 2) and exponent 2, the dot product is 2
    and the lengths are 1 and 2; the code adds 1 * (2 / (1 * 2))^2 = 1 and
    returns 2, while 1 * 2^2 / (1 * 2) = 2 would give 3. *)
Lemma ComputeLighting_specular_not_power_first :
  ~ specular_claim specularTerm_power_first
      unused_transcendental unused_transcendental
      light_above (vec 0 0 1) (vec 0 0 1) (vec 0 0 2) (of_Z 2) [].
Proof.
  intros H.
  assert (U : unoccluded light_above (vec 0 0 1) []).
  { exists nullSphere, math.MaxFloat64. split; reflexivity. }
  specialize (H eq_refl U eq_refl eq_refl eq_refl).
  vm_compute in H. discriminate.
Qed.

(** C4 (as amended).  Whenever ComputeLighting returns: for an ambient
    light the value is the light's intensity as configured, unclamped; for
    every other light the value went through max(0, _) and is not
    negative. *)
Theorem ComputeLighting_clamped_unless_ambient
    Exp Log light point normal inverseDir specular spheres v :
  Light_ComputeLighting Exp Log light point normal inverseDir specular spheres
  = Ret v ->
  if lightType light =? Ambient then v = intensity light
  else flt v zero = false.
Proof.
  intros H. destruct (lightType light =? Ambient) eqn:E.
  - apply Z.eqb_eq in E.
    rewrite (ComputeLighting_ambient Exp Log _ _ _ _ _ _ E) in H.
    now injection H.
  - apply Z.eqb_neq in E.
    destruct (ComputeLighting_clamp Exp Log _ _ _ _ _ _ _ E H) as [x ->].
    apply Max_zero_not_negative.
Qed.

Lemma ComputeLighting_clamped_unless_ambient_witness :
  Light_ComputeLighting unused_transcendental unused_transcendental
    light_above (vec 0 0 1) (vec 0 0 1) (vec 0 0 2) (of_Z 2) []
  = Ret (of_Z 2)
  /\ flt (of_Z 2) zero = false.
Proof.
  split; [reflexivity|].
  apply (ComputeLighting_clamped_unless_ambient
           unused_transcendental unused_transcendental
           light_above (vec 0 0 1) (vec 0 0 1) (vec 0 0 2) (of_Z 2) []
           (of_Z 2)).
  reflexivity.
Defined.

(** C4 as stated fails: an ambient light of intensity -1 returns -1. *)
Lemma ComputeLighting_ambient_negative :
  ~ never_negative unused_transcendental unused_transcendental
      dark_ambient (vec 0 0 1) (vec 0 0 1) (vec 0 0 2) (of_Z 2) [].
Proof.
  intros H. specialize (H (of_Z (-1)) eq_refl). discriminate.
Qed.

(** C5 (as amended).  For a point light whose shadow ray is met by some
    sphere at a parameter in (Epsilon, 1], ComputeLighting returns exactly
    0, provided the nearest sphere the shadow ray meets in [Epsilon, 1] -
    the closest hit, the first in scene order on a tie - is not itself
    taken for the null sphere by IsNull; what lies beyond it does not
    matter. *)
Theorem ComputeLighting_shadowed_is_zero
    Exp Log light point normal inverseDir specular spheres :
  lightType light = Point ->
  blocked light point spheres ->
  (forall s t,
     closest_hit point (vector3.Sub (position light) point) spheres
       Epsilon one s t ->
     Sphere_IsNull s = false) ->
  Light_ComputeLighting Exp Log light point normal inverseDir specular spheres
  = Ret zero.
Proof.
  intros Hk (b & r & Hin & Hr & Hlo & Hhi) Hreal.
  rewrite (ComputeLighting_point Exp Log _ _ _ _ _ _ Hk).
  pose proof (root_candidate _ _ _ _ Hr) as Hc.
  pose proof (candidate_nonzero _ _ _ _ Hc) as Ha.
  destruct (FindClosest_loop_spec point _ Epsilon one Ha spheres
              nullSphere math.MaxFloat64 MaxFloat64_not_nan)
    as (s & t & Heq & Hcase).
  unfold FindClosest. rewrite Heq. cbn [bind].
  assert (Hir : in_interval Epsilon one r = true).
  { change (fle Epsilon r && fle r one = true).
    now rewrite (flt_fle _ _ Hlo), Hhi. }
  destruct Hcase as [(_ & _ & Hnone)|[Hhit _]].
  - specialize (Hnone b r Hin Hc).
    rewrite closer_split, Hir in Hnone. cbn in Hnone.
    assert (flt r math.MaxFloat64 = true); [|congruence].
    eapply fle_flt_trans; [exact Hhi | reflexivity].
  - rewrite (Hreal s t); [reflexivity|].
    apply closest_candidate_hit; [reflexivity | exact Hhit].
Qed.

Lemma ComputeLighting_shadowed_is_zero_witness :
  Light_ComputeLighting unused_transcendental unused_transcendental
    light_behind (vec 0 0 (-1)) (vec 0 0 1) (vec 0 0 2) (of_Z (-1))
    [tiny_sphere; near_sphere]
  = Ret zero.
Proof.
  apply (ComputeLighting_shadowed_is_zero
           unused_transcendental unused_transcendental
           light_behind (vec 0 0 (-1)) (vec 0 0 1) (vec 0 0 2) (of_Z (-1))
           [tiny_sphere; near_sphere]).
  - reflexivity.
  - exists near_sphere, (of_ratio 1 8). split; [right; now left|]. split.
    + split; [reflexivity|].
      exists (of_ratio 3 8), (of_ratio 1 8). split; [reflexivity | now right].
    + split; reflexivity.
  - intros s t (i & Hnth & Hroot & _ & Hall & _).
    destruct i as [|[|i]]; cbn in Hnth.
    + injection Hnth as <-.
      assert (Hnear : root near_sphere (vec 0 0 (-1))
                        (vector3.Sub (position light_behind) (vec 0 0 (-1)))
                        (of_ratio 1 8)).
      { split; [reflexivity|].
        exists (of_ratio 3 8), (of_ratio 1 8).
        split; [reflexivity | now right]. }
      specialize (Hall 1%nat near_sphere (of_ratio 1 8) eq_refl Hnear eq_refl).
      destruct Hroot as [_ (t1 & t2 & HI & Ht)].
      vm_compute in HI. injection HI as <- <-.
      destruct Ht as [-> | ->]; vm_compute in Hall; discriminate Hall.
    + injection Hnth as <-. reflexivity.
    + destruct i; discriminate Hnth.
Defined.

(** C5 as stated fails: seen from (0, 0, -1), the light at (0, 0, 1) is
    behind [tiny_sphere], which the shadow ray meets at 1/2 - 2^-11 and
    1/2 + 2^-11; but IsNull takes that sphere for the null sphere, and the
    light contributes 2. *)
Lemma ComputeLighting_blocked_by_null_like_sphere :
  ~ shadow_claim unused_transcendental unused_transcendental
      light_behind (vec 0 0 (-1)) (vec 0 0 1) (vec 0 0 2) (of_Z (-1))
      [tiny_sphere].
Proof.
  intros H.
  assert (Hb : blocked light_behind (vec 0 0 (-1)) [tiny_sphere]).
  { exists tiny_sphere, (fadd (of_ratio 1 2) (of_ratio 1 2048)).
    split; [now left|]. split.
    - split; [vm_compute; reflexivity|].
      exists (fadd (of_ratio 1 2) (of_ratio 1 2048)),
             (fsub (of_ratio 1 2) (of_ratio 1 2048)).
      split; [vm_compute; reflexivity | now left].
    - split; reflexivity. }
  specialize (H eq_refl Hb). vm_compute in H. discriminate.
Qed.

(** C9.  The diffuse division has no zero guard: for a point light whose
    shadow test finds nothing and whose specular branch is off, when the
    divisor |point| * |normal| is 0 (the point is the world origin, or the
    normal is the zero vector) and the numerator is not negative,
    ComputeLighting does not panic: it returns +Inf or NaN. *)
Theorem ComputeLighting_diffuse_divides_by_zero
    Exp Log light point normal inverseDir specular spheres :
  lightType light = Point ->
  unoccluded light point spheres ->
  fgt specular (of_Z (-1)) = false ->
  fmul (vector3.Vector3_Length point) (vector3.Vector3_Length normal) = zero ->
  flt (fmul (intensity light)
            (math.Max zero
               (vector3.Dot (vector3.Sub (position light) point) normal)))
      zero = false ->
  exists v,
    Light_ComputeLighting Exp Log light point normal inverseDir specular spheres
    = Ret v
    /\ is_finite v = false.
Proof.
  intros Hk (s & t & Hfind & Hnull) Hs Hdiv Hnum.
  rewrite (ComputeLighting_point Exp Log _ _ _ _ _ _ Hk), Hfind.
  cbn [bind]. rewrite Hnull, Hs. eexists. split; [reflexivity|].
  unfold diffuseTerm. rewrite Hdiv.
  destruct (fmul (intensity light) _) as [sx|sx| |sx mx ex];
    try destruct sx; try discriminate; reflexivity.
Qed.

Lemma ComputeLighting_diffuse_divides_by_zero_witness :
  exists v,
    Light_ComputeLighting unused_transcendental unused_transcendental
      light_above (vec 0 0 0) (vec 0 0 1) (vec 0 0 2) (of_Z (-1)) []
    = Ret v
    /\ is_finite v = false.
Proof.
  apply (ComputeLighting_diffuse_divides_by_zero
           unused_transcendental unused_transcendental
           light_above (vec 0 0 0) (vec 0 0 1) (vec 0 0 2) (of_Z (-1)) []).
  - reflexivity.
  - exists nullSphere, math.MaxFloat64. split; reflexivity.
  - reflexivity.
  - reflexivity.
  - reflexivity.
Defined.

(** ** TraceRay *)

Section TraceRayFacts.
Variables Exp Log : float -> float.

(** One call of [TraceRay], in the vocabulary of the properties. *)
Lemma TraceRay_S fuel startPoint direction spheres lights recursionDepth tMin tMax :
  TraceRay Exp Log (S fuel) startPoint direction spheres lights recursionDepth
    tMin tMax
  = match FindClosest startPoint direction spheres tMin tMax with
    | Panic msg => Some (warningLog direction, Panic msg)
    | Ret (s, t) =>
      if Sphere_IsNull s then Some (warningLog direction, Ret background)
      else
        match hitLighting Exp Log startPoint direction spheres lights s t with
        | Panic msg => Some (warningLog direction, Panic msg)
        | Ret lightVal =>
          if fle (reflective s) zero || (recursionDepth <=? 0)
          then Some (warningLog direction, Ret (localShade s lightVal))
          else
            match reflectedTrace Exp Log fuel startPoint direction spheres
                    lights recursionDepth tMax s t with
            | None => None
            | Some (out', Panic msg) =>
                Some (warningLog direction ++ out', Panic msg)
            | Some (out', Ret reflectedColor) =>
                Some (warningLog direction ++ out',
                      Ret (blendRGB reflectedColor
                             (scaleRGB (localShade s lightVal)
                                (fsub one (reflective s)))
                             (reflective s)))
            end
        end
    end.
Proof. reflexivity. Qed.

(** More fuel does not change a result. *)
Lemma TraceRay_more_fuel fuel :
  forall startPoint direction spheres lights recursionDepth tMin tMax r,
  TraceRay Exp Log fuel startPoint direction spheres lights recursionDepth
    tMin tMax = Some r ->
  TraceRay Exp Log (S fuel) startPoint direction spheres lights recursionDepth
    tMin tMax = Some r.
Proof.
  induction fuel as [|fuel IH]; intros o d spheres lights depth tMin tMax r H;
    [discriminate|].
  rewrite TraceRay_S in H. rewrite TraceRay_S.
  destruct (FindClosest o d spheres tMin tMax) as [[s t]|msg]; [|exact H].
  destruct (Sphere_IsNull s); [exact H|].
  destruct (hitLighting Exp Log o d spheres lights s t) as [lv|msg]; [|exact H].
  destruct (fle (reflective s) zero || (depth <=? 0)); [exact H|].
  unfold reflectedTrace in *.
  destruct (TraceRay Exp Log fuel _ _ _ _ _ _ _) as [r'|] eqn:E; [|discriminate].
  now rewrite (IH _ _ _ _ _ _ _ _ E).
Qed.

Lemma TraceRay_fuel_le fuel fuel' :
  (fuel <= fuel')%nat ->
  forall startPoint direction spheres lights recursionDepth tMin tMax r,
  TraceRay Exp Log fuel startPoint direction spheres lights recursionDepth
    tMin tMax = Some r ->
  TraceRay Exp Log fuel' startPoint direction spheres lights recursionDepth
    tMin tMax = Some r.
Proof.
  induction 1 as [|fuel' _ IH]; intros; auto using TraceRay_more_fuel.
Qed.

(** The depth of the recursive call is smaller. *)
Lemma int8_pred_lt n : 0 < n -> int8 (n - 1) < n.
Proof.
  intros H. unfold int8.
  destruct (Z_lt_le_dec n 128) as [Hs|Hb].
  - rewrite Z.mod_small by lia. lia.
  - pose proof (Z.mod_pos_bound (n - 1 + 128) 256). lia.
Qed.

(** Fuel above the recursion depth is enough. *)
Lemma TraceRay_enough_fuel fuel :
  forall startPoint direction spheres lights recursionDepth tMin tMax,
  (Z.to_nat recursionDepth < fuel)%nat ->
  exists r,
    TraceRay Exp Log fuel startPoint direction spheres lights recursionDepth
      tMin tMax = Some r.
Proof.
  induction fuel as [|fuel IH]; intros o d spheres lights depth tMin tMax Hf;
    [lia|].
  rewrite TraceRay_S.
  destruct (FindClosest o d spheres tMin tMax) as [[s t]|msg]; [|eauto].
  destruct (Sphere_IsNull s); [eauto|].
  destruct (hitLighting Exp Log o d spheres lights s t) as [lv|msg]; [|eauto].
  destruct (fle (reflective s) zero) eqn:Er; [cbn [orb]; eauto|].
  destruct (depth <=? 0) eqn:Ed; [cbn [orb]; eauto|]. cbn [orb].
  apply Z.leb_gt in Ed.
  unfold reflectedTrace.
  destruct (IH (hitPoint o d t)
              (ReflectRay (vector3.Vector3_Negate d) (hitNormal o d s t))
              spheres lights (int8 (depth - 1)) Epsilon tMax) as [[out' [c|msg]] ->].
  - pose proof (int8_pred_lt depth Ed). lia.
  - eauto.
  - eauto.
Qed.
End TraceRayFacts.

(** ** The 8-bit channels *)

Lemma to_uint8_range x : 0 <= to_uint8 x < 256.
Proof.
  unfold to_uint8. destruct x; try lia.
  match goal with |- context [if ?c then _ else _] => destruct c end;
    [apply Z.mod_pos_bound|]; lia.
Qed.

Lemma uint8_add_range a b : 0 <= uint8_add a b < 256.
Proof. apply Z.mod_pos_bound. lia. Qed.

Lemma scaleRGB_in_range c k : rgb_in_range (scaleRGB c k).
Proof. repeat split; apply to_uint8_range. Qed.

Lemma blendRGB_in_range c l k : rgb_in_range (blendRGB c l k).
Proof. repeat split; apply uint8_add_range. Qed.

(** A property of a uint8 value checked on all 256 of them. *)
Lemma all_uint8 (P : Z -> bool) :
  forallb P (map Z.of_nat (seq 0 256)) = true ->
  forall n, 0 <= n < 256 -> P n = true.
Proof.
  intros H n Hn. rewrite forallb_forall in H. apply H.
  rewrite <- (Z2Nat.id n) by lia. apply in_map, in_seq. lia.
Qed.

(** float64(n) * 1 converts back to n, and float64(n) * (1 - 1) to 0. *)
Lemma to_uint8_times_one n :
  0 <= n < 256 -> to_uint8 (fmul (of_Z n) one) = n.
Proof.
  intros Hn. apply Z.eqb_eq.
  apply (all_uint8 (fun n => to_uint8 (fmul (of_Z n) one) =? n));
    [vm_compute; reflexivity | exact Hn].
Qed.

Lemma to_uint8_times_zero n :
  0 <= n < 256 -> to_uint8 (fmul (of_Z n) (fsub one one)) = 0.
Proof.
  intros Hn. apply Z.eqb_eq.
  apply (all_uint8 (fun n => to_uint8 (fmul (of_Z n) (fsub one one)) =? 0));
    [vm_compute; reflexivity | exact Hn].
Qed.

(** With reflective = 1 the blend gives back the reflected color. *)
Lemma blendRGB_full_reflection reflectedColor localColor :
  rgb_in_range reflectedColor -> rgb_in_range localColor ->
  blendRGB reflectedColor (scaleRGB localColor (fsub one one)) one
  = reflectedColor.
Proof.
  intros (Hr & Hg & Hb) (Lr & Lg & Lb).
  destruct reflectedColor as [r g b a]. unfold blendRGB, scaleRGB. cbn [R G B A] in *.
  rewrite !to_uint8_times_one, !to_uint8_times_zero by assumption.
  unfold uint8_add. rewrite !Z.add_0_r, !Z.mod_small by assumption.
  reflexivity.
Qed.

Section TraceRayColors.
Variables Exp Log : float -> float.

(** Every color [TraceRay] returns has its R, G and B in [0, 256). *)
Lemma TraceRay_rgb_in_range fuel startPoint direction spheres lights
    recursionDepth tMin tMax out c :
  TraceRay Exp Log fuel startPoint direction spheres lights recursionDepth
    tMin tMax = Some (out, Ret c) ->
  rgb_in_range c.
Proof.
  destruct fuel as [|fuel]; [discriminate|]. rewrite TraceRay_S.
  destruct (FindClosest _ _ _ _ _) as [[s t]|msg]; [|discriminate].
  destruct (Sphere_IsNull s).
  { intros H. injection H as _ <-. repeat split; cbn; lia. }
  destruct (hitLighting _ _ _ _ _ _ _ _) as [lv|msg]; [|discriminate].
  destruct (fle (reflective s) zero || (recursionDepth <=? 0)).
  { intros H. injection H as _ <-. apply scaleRGB_in_range. }
  destruct (reflectedTrace _ _ _ _ _ _ _ _ _ _ _) as [[out' [c'|msg]]|];
    try discriminate.
  intros H. injection H as _ <-. apply blendRGB_in_range.
Qed.
End TraceRayColors.
(** ** The square root of a positive binary64 value is not zero *)

Lemma digits2_pos_bounds p :
  2 ^ (Zpos (digits2_pos p) - 1) <= Zpos p < 2 ^ Zpos (digits2_pos p).
Proof.
  induction p as [p IH|p IH|]; cbn [digits2_pos].
  - rewrite Pos2Z.inj_succ.
    replace (Z.succ (Zpos (digits2_pos p)) - 1) with (Zpos (digits2_pos p) - 1 + 1) by lia.
    rewrite Z.pow_succ_r, Z.pow_add_r by lia. lia.
  - rewrite Pos2Z.inj_succ.
    replace (Z.succ (Zpos (digits2_pos p)) - 1) with (Zpos (digits2_pos p) - 1 + 1) by lia.
    rewrite Z.pow_succ_r, Z.pow_add_r by lia. lia.
  - cbn. lia.
Qed.

Lemma Zdigits2_exact q k :
  0 < k -> 2 ^ (k - 1) <= q < 2 ^ k -> Zdigits2 q = k.
Proof.
  intros Hk [Hlo Hhi].
  assert (0 < q) by (pose proof (Z.pow_pos_nonneg 2 (k - 1)); lia).
  destruct q as [|p|p]; try lia. cbn [Zdigits2].
  pose proof (digits2_pos_bounds p) as [Dlo Dhi].
  set (d := Zpos (digits2_pos p)) in *.
  destruct (Z.lt_trichotomy d k) as [Hlt|[Heq|Hgt]]; [|exact Heq|].
  - assert (2 ^ d <= 2 ^ (k - 1)) by (apply Z.pow_le_mono_r; lia). lia.
  - assert (2 ^ k <= 2 ^ (d - 1)) by (apply Z.pow_le_mono_r; lia). lia.
Qed.

Lemma shr_record_of_loc_m m l : shr_m (shr_record_of_loc m l) = m.
Proof. destruct l as [|[]]; reflexivity. Qed.

(** Rounding a 53-bit mantissa at an exponent of the format never gives 0. *)
Lemma binary_round_aux_53_bits s q e l :
  2 ^ 52 <= q < 2 ^ 53 -> -1074 <= e ->
  feq (binary_round_aux prec emax s q e l) zero = false.
Proof.
  intros Hq He. unfold binary_round_aux, shr_fexp.
  rewrite (Zdigits2_exact q 53) by lia.
  assert (Hf : fexp prec emax (53 + e) - e = 0).
  { unfold fexp, emin, prec, emax. lia. }
  rewrite Hf. cbn [shr].
  rewrite shr_record_of_loc_m.
  set (q2 := round_nearest_even q _).
  assert (Hq2 : q <= q2 <= q + 1).
  { subst q2. unfold round_nearest_even.
    destruct (loc_of_shr_record _) as [|[]]; try lia.
    destruct (Z.even q); lia. }
  destruct (Z.eq_dec q2 (2 ^ 53)) as [->|Hne].
  - vm_compute (Zdigits2 (2 ^ 53)).
    assert (Hf2 : fexp prec emax (54 + e) - e = 1).
    { unfold fexp, emin, prec, emax. lia. }
    rewrite Hf2. cbn.
    destruct (e + 1 <=? 971); destruct s; reflexivity.
  - rewrite (Zdigits2_exact q2 53) by lia. rewrite Hf. cbn [shr shr_m shr_record_of_loc].
    destruct q2 as [|p|p]; try lia.
    destruct (e <=? emax - prec); destruct s; reflexivity.
Qed.

(** The square root of a well-formed positive value has a 53-bit
    mantissa before rounding. *)
Lemma SFsqrt_core_53_bits m e :
  bounded prec emax m e = true ->
  let '(q, e', _) := SFsqrt_core_binary prec emax (Zpos m) e in
  2 ^ 52 <= q < 2 ^ 53 /\ -1074 <= e'.
Proof.
  unfold bounded, canonical_mantissa. intros H.
  apply andb_true_iff in H as [Hc _]. apply Z.eqb_eq in Hc.
  unfold SFsqrt_core_binary. cbn [Zdigits2].
  pose proof (digits2_pos_bounds m) as [Dlo Dhi].
  set (d := Zpos (digits2_pos m)) in *.
  assert (Hd : 0 < d) by (subst d; lia).
  unfold fexp, emin, prec, emax in *.
  rewrite !Z.div2_div.
  set (k := (d + e + 1) / 2).
  assert (Hk : 2 * k <= d + e + 1 <= 2 * k + 1).
  { subst k. pose proof (Z.div_mod (d + e + 1) 2).
    pose proof (Z.mod_pos_bound (d + e + 1) 2). lia. }
  assert (He2 : 2 * (e / 2) <= e <= 2 * (e / 2) + 1).
  { pose proof (Z.div_mod e 2). pose proof (Z.mod_pos_bound e 2). lia. }
  assert (He' : Z.min (Z.max (k - 53) (3 - 1024 - 53)) (e / 2) = k - 53) by lia.
  rewrite He'.
  set (s := e - 2 * (k - 53)).
  assert (Hs : 0 < s) by (subst s; lia).
  assert (Hds : d + s = 105 \/ d + s = 106) by (subst s; lia).
  destruct s as [|ps|ps] eqn:Es; try lia. rewrite <- Es in *.
  rewrite Z.shiftl_mul_pow2 by lia.
  pose proof (Z.sqrtrem_spec (Zpos m * 2 ^ s)) as Hsq.
  destruct (Z.sqrtrem (Zpos m * 2 ^ s)) as [q r].
  assert (Hp : 0 < 2 ^ s) by (apply Z.pow_pos_nonneg; lia).
  specialize (Hsq ltac:(lia)). destruct Hsq as [Hsq Hr].
  assert (Hlo : 2 ^ 104 <= Zpos m * 2 ^ s).
  { assert (2 ^ 104 <= 2 ^ (d - 1 + s)) by (apply Z.pow_le_mono_r; lia).
    rewrite Z.pow_add_r in * by lia. nia. }
  assert (Hhi : Zpos m * 2 ^ s < 2 ^ 106).
  { assert (2 ^ (d + s) <= 2 ^ 106) by (apply Z.pow_le_mono_r; lia).
    rewrite Z.pow_add_r in * by lia. nia. }
  split; [|lia].
  change (2 ^ 104) with (2 ^ 52 * 2 ^ 52) in Hlo.
  change (2 ^ 106) with (2 ^ 53 * 2 ^ 53) in Hhi.
  nia.
Qed.

(** [Sqrt] vanishes on zeros only. *)
Lemma Sqrt_zero_only_of_zero x :
  valid_binary prec emax x = true ->
  feq (math.Sqrt x) zero = true -> feq x zero = true.
Proof.
  destruct x as [s|s| |s m e]; try destruct s; try discriminate; auto.
  cbn [valid_binary]. intros Hb.
  unfold math.Sqrt, SFsqrt.
  pose proof (SFsqrt_core_53_bits m e Hb) as H.
  destruct (SFsqrt_core_binary prec emax (Zpos m) e) as [[q e'] l].
  destruct H as [Hq He].
  rewrite (binary_round_aux_53_bits false q e' l Hq He). discriminate.
Qed.
(** ** Well-formed binary64 values are closed under + and * *)

Lemma Zdigits2_nonneg z : 0 <= Zdigits2 z.
Proof. destruct z; cbn; lia. Qed.

Lemma Zdigits2_shr_1 mrs :
  Zdigits2 (shr_m (shr_1 mrs)) = Z.max 0 (Zdigits2 (shr_m mrs) - 1).
Proof.
  destruct mrs as [m r s]. destruct m as [|p|p]; try destruct p;
    cbn [shr_1 shr_m Zdigits2 digits2_pos]; lia.
Qed.

Lemma Zdigits2_shr_iter p :
  forall mrs,
  Zdigits2 (shr_m (iter_pos shr_1 p mrs))
  = Z.max 0 (Zdigits2 (shr_m mrs) - Zpos p).
Proof.
  induction p as [p IH|p IH|]; intros mrs; cbn [iter_pos].
  - rewrite !IH, Zdigits2_shr_1. lia.
  - rewrite !IH. lia.
  - apply Zdigits2_shr_1.
Qed.

Lemma shr_1_nonneg mrs : 0 <= shr_m mrs -> 0 <= shr_m (shr_1 mrs).
Proof.
  destruct mrs as [m r s]. destruct m as [|p|p]; try destruct p;
    cbn [shr_1 shr_m]; lia.
Qed.

Lemma shr_iter_nonneg p :
  forall mrs, 0 <= shr_m mrs -> 0 <= shr_m (iter_pos shr_1 p mrs).
Proof.
  induction p as [p IH|p IH|]; intros mrs H; cbn [iter_pos];
    auto using shr_1_nonneg.
Qed.

(** Shifting right to the exponent of the format: the exponent becomes
    [fexp (digits + e)] and the digits shrink by the shift. *)
Lemma shr_fexp_spec m e l :
  0 <= m -> e <= fexp prec emax (Zdigits2 m + e) ->
  let '(mrs, e') := shr_fexp prec emax m e l in
  e' = fexp prec emax (Zdigits2 m + e)
  /\ 0 <= shr_m mrs
  /\ Zdigits2 (shr_m mrs) = Z.max 0 (Zdigits2 m - (e' - e)).
Proof.
  intros Hm Hn. unfold shr_fexp.
  set (n := fexp prec emax (Zdigits2 m + e) - e).
  assert (Hn0 : 0 <= n) by (subst n; lia).
  pose proof (Zdigits2_nonneg m).
  destruct n as [|p|p] eqn:En; try lia; cbn [shr].
  - rewrite shr_record_of_loc_m. repeat split; lia.
  - rewrite Zdigits2_shr_iter, shr_record_of_loc_m.
    repeat split; try lia.
    apply shr_iter_nonneg. now rewrite shr_record_of_loc_m.
Qed.

Lemma Zdigits2_succ m :
  0 <= m -> Zdigits2 m <= Zdigits2 (m + 1).
Proof.
  intros Hm. destruct m as [|p|p]; try lia; [cbn; lia|].
  replace (Zpos p + 1) with (Zpos (p + 1)) by lia. cbn [Zdigits2].
  pose proof (digits2_pos_bounds p) as [Lo _].
  pose proof (digits2_pos_bounds (p + 1)) as [_ Hi].
  destruct (Z_lt_le_dec (Zpos (digits2_pos (p + 1))) (Zpos (digits2_pos p)))
    as [Hlt|]; [|assumption].
  assert (2 ^ Zpos (digits2_pos (p + 1)) <= 2 ^ (Zpos (digits2_pos p) - 1))
    by (apply Z.pow_le_mono_r; lia).
  lia.
Qed.

Lemma fexp_mono a b : a <= b -> fexp prec emax a <= fexp prec emax b.
Proof. unfold fexp. lia. Qed.

(** Rounding a mantissa that needs no left shift gives a well-formed value. *)
Lemma binary_round_aux_valid s m e l :
  0 <= m -> e <= fexp prec emax (Zdigits2 m + e) ->
  valid_binary prec emax (binary_round_aux prec emax s m e l) = true.
Proof.
  intros Hm Hn. unfold binary_round_aux.
  pose proof (shr_fexp_spec m e l Hm Hn) as H1.
  destruct (shr_fexp prec emax m e l) as [mrs1 e1].
  destruct H1 as (He1 & Hm1 & Hd1).
  set (q := round_nearest_even (shr_m mrs1) (loc_of_shr_record mrs1)).
  assert (Hq : 0 <= q /\ Zdigits2 (shr_m mrs1) <= Zdigits2 q).
  { subst q. unfold round_nearest_even.
    destruct (loc_of_shr_record mrs1) as [|[]]; try (split; lia).
    - destruct (Z.even (shr_m mrs1)); [split; lia|].
      split; [lia | now apply Zdigits2_succ].
    - split; [lia | now apply Zdigits2_succ]. }
  destruct Hq as [Hq0 Hqd].
  assert (Hn2 : e1 <= fexp prec emax (Zdigits2 q + e1)).
  { rewrite He1 at 1. apply fexp_mono. lia. }
  pose proof (shr_fexp_spec q e1 loc_Exact Hq0 Hn2) as H2.
  destruct (shr_fexp prec emax q e1 loc_Exact) as [mrs2 e2].
  destruct H2 as (He2 & Hm2 & Hd2).
  destruct (shr_m mrs2) as [|p|p] eqn:Em; try reflexivity.
  destruct (e2 <=? emax - prec) eqn:Eb; [|reflexivity].
  cbn [valid_binary]. unfold bounded, canonical_mantissa. rewrite Eb.
  rewrite andb_true_r. apply Z.eqb_eq.
  cbn [Zdigits2] in Hd2.
  replace (Zpos (digits2_pos p) + e2) with (Zdigits2 q + e1) by lia.
  now symmetry.
Qed.

Lemma digits2_pos_shift m d :
  Zpos (digits2_pos (Pos.iter xO m d)) = Zpos (digits2_pos m) + Zpos d.
Proof.
  revert m. apply Pos.peano_ind with (p := d); intros.
  - cbn. lia.
  - rewrite Pos.iter_succ. cbn [digits2_pos]. rewrite Pos2Z.inj_succ, H. lia.
Qed.

Lemma binary_round_valid s m e :
  valid_binary prec emax (binary_round prec emax s m e) = true.
Proof.
  unfold binary_round, shl_align.
  set (f := fexp prec emax (Zpos (digits2_pos m) + e)).
  destruct (f - e) as [|d|d] eqn:Ed.
  - apply binary_round_aux_valid; [lia|]. cbn [Zdigits2]. fold f. lia.
  - apply binary_round_aux_valid; [lia|]. cbn [Zdigits2]. fold f. lia.
  - apply binary_round_aux_valid; [lia|]. cbn [Zdigits2].
    rewrite digits2_pos_shift.
    replace (Zpos (digits2_pos m) + Zpos d + f) with (Zpos (digits2_pos m) + e) by lia.
    fold f. lia.
Qed.

Lemma binary_normalize_valid m e szero :
  valid_binary prec emax (binary_normalize prec emax m e szero) = true.
Proof. destruct m; cbn [binary_normalize]; auto using binary_round_valid. Qed.

Lemma fadd_valid x y :
  valid_binary prec emax x = true -> valid_binary prec emax y = true ->
  valid_binary prec emax (fadd x y) = true.
Proof.
  intros Hx Hy. unfold fadd, SFadd.
  destruct x as [sx|sx| |sx mx ex], y as [sy|sy| |sy my ey];
    try destruct sx; try destruct sy; auto using binary_normalize_valid.
Qed.

Lemma valid_finite_bounds m e :
  bounded prec emax m e = true ->
  Zpos (digits2_pos m) <= 53 /\ -1074 <= e
  /\ (Zpos (digits2_pos m) = 53 \/ e = -1074).
Proof.
  unfold bounded, canonical_mantissa, fexp, emin, prec, emax. intros H.
  apply andb_true_iff in H as [H _]. apply Z.eqb_eq in H. lia.
Qed.

Lemma fmul_valid x y :
  valid_binary prec emax x = true -> valid_binary prec emax y = true ->
  valid_binary prec emax (fmul x y) = true.
Proof.
  intros Hx Hy. unfold fmul, SFmul.
  destruct x as [sx|sx| |sx mx ex], y as [sy|sy| |sy my ey]; auto.
  cbn [valid_binary] in Hx, Hy.
  apply valid_finite_bounds in Hx as (Dx & Ex & Cx).
  apply valid_finite_bounds in Hy as (Dy & Ey & Cy).
  apply binary_round_aux_valid; [lia|].
  cbn [Zdigits2].
  pose proof (digits2_pos_bounds mx) as [Lx _].
  pose proof (digits2_pos_bounds my) as [Ly _].
  pose proof (digits2_pos_bounds (mx * my)) as [_ Hxy].
  set (dx := Zpos (digits2_pos mx)) in *.
  set (dy := Zpos (digits2_pos my)) in *.
  set (dxy := Zpos (digits2_pos (mx * my))) in *.
  assert (Hd : dx + dy - 1 <= dxy).
  { destruct (Z_lt_le_dec dxy (dx + dy - 1)) as [Hlt|]; [|assumption].
    assert (2 ^ dxy <= 2 ^ (dx - 1 + (dy - 1))) by (apply Z.pow_le_mono_r; lia).
    rewrite Z.pow_add_r in * by lia.
    rewrite Pos2Z.inj_mul in Hxy.
    assert (2 ^ (dx - 1) * 2 ^ (dy - 1) <= Zpos mx * Zpos my) by nia.
    lia. }
  assert (0 < dx /\ 0 < dy) as [? ?] by (subst dx dy; lia).
  unfold fexp, emin, prec, emax. lia.
Qed.

Lemma Dot_self_valid v :
  Vec3_is_binary64 v = true ->
  valid_binary prec emax (vector3.Dot v v) = true.
Proof.
  unfold Vec3_is_binary64, is_binary64. intros H.
  apply andb_true_iff in H as [H Hz]. apply andb_true_iff in H as [Hx Hy].
  unfold vector3.Dot. auto using fadd_valid, fmul_valid.
Qed.

(** A vector of float64 values has length 0 only when its squared length
    is 0. *)
Lemma Length_zero_only_of_zero_square v :
  Vec3_is_binary64 v = true ->
  feq (vector3.Vector3_Length v) zero = true ->
  feq (vector3.Dot v v) zero = true.
Proof.
  intros Hv. apply Sqrt_zero_only_of_zero, Dot_self_valid, Hv.
Qed.

(** C2 (as amended).  If the direction passed to TraceRay has length 0,
    TraceRay prints the warning and goes on to the closest-hit search; with an
    empty sphere list it returns the background color, and with a
    non-empty sphere list ComputeIntersection panics on the first sphere,
    so that no color is returned. *)
Theorem TraceRay_zero_direction
    Exp Log fuel startPoint direction spheres lights recursionDepth tMin tMax :
  Vec3_is_binary64 direction = true ->
  feq (vector3.Vector3_Length direction) zero = true ->
  TraceRay Exp Log (S fuel) startPoint direction spheres lights
    recursionDepth tMin tMax
  = Some ([zero_direction_warning],
          match spheres with
          | [] => Ret background
          | _ :: _ => Panic "ComputeIntersection: Division by zero"
          end).
Proof.
  intros Hv Hl. pose proof (Length_zero_only_of_zero_square _ Hv Hl) as Ha.
  rewrite TraceRay_S. unfold warningLog. rewrite Hl.
  destruct spheres as [|sphere rest].
  - reflexivity.
  - unfold FindClosest.
    now rewrite (FindClosest_loop_panics _ _ _ _ _ _ _ _ Ha).
Qed.

Lemma TraceRay_zero_direction_witness :
  TraceRay unused_transcendental unused_transcendental 4 main_start
    (vec 0 0 0) main_spheres main_lights 3 (of_Z 1) math.MaxFloat64
  = Some ([zero_direction_warning],
          Panic "ComputeIntersection: Division by zero").
Proof.
  apply (TraceRay_zero_direction unused_transcendental unused_transcendental
           3 main_start (vec 0 0 0) main_spheres main_lights 3 (of_Z 1)
           math.MaxFloat64).
  - reflexivity.
  - reflexivity.
Defined.

(** C2 as stated fails: on the scene of [main], a camera ray of direction
    (0, 0, 0) prints the warning and then panics in ComputeIntersection;
    no color is returned. *)
Lemma TraceRay_zero_direction_does_not_continue :
  ~ warns_and_continues unused_transcendental unused_transcendental 4
      main_start (vec 0 0 0) main_spheres main_lights 3 (of_Z 1)
      math.MaxFloat64.
Proof.
  intros H. destruct (H eq_refl) as (out & c & E & _).
  vm_compute in E. discriminate.
Qed.

(** C6 (as amended).  For every ray that misses every sphere of the scene
    within [tMin, tMax] - no sphere has a root in the interval - TraceRay
    returns exactly the background gray (125, 125, 125, 255), provided the
    squared length of the direction is not 0 (or the scene is empty) and
    -1 is outside [tMin, tMax]. *)
Theorem TraceRay_miss_is_background
    Exp Log fuel startPoint direction spheres lights recursionDepth tMin tMax :
  misses_all startPoint direction spheres tMin tMax ->
  feq (vector3.Dot direction direction) zero = false \/ spheres = [] ->
  in_interval tMin tMax (of_Z (-1)) = false ->
  TraceRay Exp Log (S fuel) startPoint direction spheres lights recursionDepth
    tMin tMax
  = Some (warningLog direction, Ret (mkColor 125 125 125 255)).
Proof.
  intros Hmiss Hdir Hm. rewrite TraceRay_S. unfold FindClosest.
  rewrite FindClosest_loop_unchanged.
  - now rewrite IsNull_nullSphere.
  - intros s Hs. destruct Hdir as [Ha| ->]; [|destruct Hs].
    destruct (ComputeIntersection_returns s startPoint _ Ha) as (t1 & t2 & HI).
    exists t1, t2. split; [exact HI|].
    assert (Hout : forall t, t = t1 \/ t = t2 ->
              closer tMin tMax math.MaxFloat64 t = false).
    { intros t Ht. rewrite closer_split.
      destruct (in_interval tMin tMax t) eqn:Hi; [|reflexivity].
      assert (Hc : candidate s startPoint direction t) by (exists t1, t2; auto).
      pose proof (candidate_in_interval_root _ _ _ _ _ _ Hm Hc Hi) as Hr.
      rewrite (Hmiss s t Hs Hr) in Hi. discriminate. }
    split; apply Hout; auto.
Qed.

Lemma TraceRay_miss_is_background_witness :
  TraceRay unused_transcendental unused_transcendental 4 main_start
    (main_rayDirection 1024 10) main_spheres main_lights 3 (of_Z 1)
    math.MaxFloat64
  = Some ([], Ret (mkColor 125 125 125 255)).
Proof.
  apply (TraceRay_miss_is_background unused_transcendental unused_transcendental
           3 main_start (main_rayDirection 1024 10) main_spheres main_lights 3
           (of_Z 1) math.MaxFloat64).
  - intros s r Hs [Hd (t1 & t2 & HI & Hr)].
    destruct Hs as [<-|[<-|[<-|[<-|[]]]]];
      try (vm_compute in Hd; discriminate Hd).
    vm_compute in HI. injection HI as <- <-.
    destruct Hr as [-> | ->]; reflexivity.
  - left. reflexivity.
  - reflexivity.
Defined.

(** C6 as stated fails, in two ways.  The camera ray of pixel (1024, 10)
    does not meet the first sphere of [main] (negative discriminant), but
    with the interval [-2, MaxFloat64] the -1 that ComputeIntersection
    returns is taken for a hit, and under an ambient light of intensity 1
    TraceRay returns the sphere's red.  And a direction (0, 0, 0) meets
    nothing, yet on the scene of [main] TraceRay panics. *)
Lemma TraceRay_miss_not_always_background :
  ~ miss_claim unused_transcendental unused_transcendental 1 main_start
      (main_rayDirection 1024 10) [hd nullSphere main_spheres]
      [mkLight Ambient (vec 0 0 0) (of_Z 1)] 0 (of_Z (-2)) math.MaxFloat64
  /\ ~ miss_claim unused_transcendental unused_transcendental 4 main_start
        (vec 0 0 0) main_spheres main_lights 3 (of_Z 1) math.MaxFloat64.
Proof.
  split; intros H.
  - destruct H as [out E].
    + intros s r [<-|[]] [Hd _]. vm_compute in Hd. discriminate Hd.
    + vm_compute in E. discriminate E.
  - destruct H as [out E].
    + intros s r _ [_ Hc]. apply candidate_nonzero in Hc.
      vm_compute in Hc. discriminate Hc.
    + vm_compute in E. discriminate E.
Qed.

(** C7.  At a hit whose lighting is computed: if the sphere's reflective
    coefficient is 0, TraceRay returns the locally shaded color; if it is 1
    and the recursion depth is positive, TraceRay returns what the
    recursive call for the reflected ray returns - the same color, channel
    for channel - after the lines already printed. *)
Theorem TraceRay_blend_identity
    Exp Log fuel startPoint direction spheres lights recursionDepth tMin tMax
    s t lightVal :
  FindClosest startPoint direction spheres tMin tMax = Ret (s, t) ->
  Sphere_IsNull s = false ->
  hitLighting Exp Log startPoint direction spheres lights s t = Ret lightVal ->
  feq (reflective s) zero = true \/ (reflective s = one /\ 0 < recursionDepth) ->
  TraceRay Exp Log (S fuel) startPoint direction spheres lights recursionDepth
    tMin tMax
  = if feq (reflective s) zero
    then Some (warningLog direction, Ret (localShade s lightVal))
    else
      match reflectedTrace Exp Log fuel startPoint direction spheres lights
              recursionDepth tMax s t with
      | None => None
      | Some (out', r) => Some (warningLog direction ++ out', r)
      end.
Proof.
  intros Hfind Hnull Hlight Hrefl.
  rewrite TraceRay_S, Hfind, Hnull, Hlight.
  destruct Hrefl as [Hz|[Ho Hd]].
  - rewrite Hz.
    assert (Hle : fle (reflective s) zero = true).
    { revert Hz. unfold feq, fle, SFeqb, SFleb.
      now destruct (SFcompare (reflective s) zero) as [[]|]. }
    now rewrite Hle.
  - rewrite Ho. apply Z.leb_gt in Hd. rewrite Hd.
    change (fle one zero) with false. change (feq one zero) with false.
    cbn [orb].
    destruct (reflectedTrace _ _ _ _ _ _ _ _ _ _ _) as [[out' [c'|msg]]|] eqn:E;
      try reflexivity.
    rewrite blendRGB_full_reflection; [reflexivity| |apply scaleRGB_in_range].
    eapply TraceRay_rgb_in_range. exact E.
Qed.

Lemma TraceRay_blend_identity_witness :
  TraceRay unused_transcendental unused_transcendental 4 main_start (vec 0 0 1)
    [mirror_sphere] main_lights 3 (of_Z 1) math.MaxFloat64
  = match reflectedTrace unused_transcendental unused_transcendental 3
            main_start (vec 0 0 1) [mirror_sphere] main_lights 3
            math.MaxFloat64 mirror_sphere (of_Z 2) with
    | None => None
    | Some (out', r) => Some (warningLog (vec 0 0 1) ++ out', r)
    end.
Proof.
  apply (TraceRay_blend_identity unused_transcendental unused_transcendental
           3 main_start (vec 0 0 1) [mirror_sphere] main_lights 3 (of_Z 1)
           math.MaxFloat64 mirror_sphere (of_Z 2)
           (S754_finite false 4534839350437287 (-53))).
  - reflexivity.
  - reflexivity.
  - reflexivity.
  - right. split; [reflexivity | lia].
Defined.

(** C8.  TraceRay terminates on every input: the depth passed to the
    recursive call is smaller, so fuel above the recursion depth always
    yields the result, the same as with exactly depth + 1 units.  With
    depth <= 0 that is one unit: the call returns without calling itself,
    whatever the reflective coefficient of the sphere it hits. *)
Theorem TraceRay_terminates
    Exp Log fuel startPoint direction spheres lights recursionDepth tMin tMax :
  (Z.to_nat recursionDepth < fuel)%nat ->
  exists r,
    TraceRay Exp Log fuel startPoint direction spheres lights recursionDepth
      tMin tMax = Some r
    /\ TraceRay Exp Log (S (Z.to_nat recursionDepth)) startPoint direction
         spheres lights recursionDepth tMin tMax = Some r.
Proof.
  intros Hf.
  destruct (TraceRay_enough_fuel Exp Log (S (Z.to_nat recursionDepth))
              startPoint direction spheres lights recursionDepth tMin tMax)
    as [r Hr]; [lia|].
  exists r. split; [|exact Hr].
  eapply TraceRay_fuel_le; [|exact Hr]. lia.
Qed.

Lemma TraceRay_terminates_witness :
  exists r,
    TraceRay unused_transcendental unused_transcendental 9 main_start
      (main_rayDirection 1024 1024) main_spheres main_lights 3 (of_Z 1)
      math.MaxFloat64 = Some r
    /\ TraceRay unused_transcendental unused_transcendental 4 main_start
         (main_rayDirection 1024 1024) main_spheres main_lights 3 (of_Z 1)
         math.MaxFloat64 = Some r.
Proof.
  apply (TraceRay_terminates unused_transcendental unused_transcendental 9
           main_start (main_rayDirection 1024 1024) main_spheres main_lights 3
           (of_Z 1) math.MaxFloat64).
  simpl. lia.
Defined.

(** C10.  TraceRay never scales or blends the alpha channel.  Whenever it
    returns a color: on a miss the alpha is 255; at a hit that is not
    reflective or whose depth is exhausted it is the alpha of the hit
    sphere's color; in the reflective blend it is the alpha of the color
    the recursive call returned. *)
Theorem TraceRay_alpha
    Exp Log fuel startPoint direction spheres lights recursionDepth tMin tMax
    out c :
  TraceRay Exp Log (S fuel) startPoint direction spheres lights recursionDepth
    tMin tMax = Some (out, Ret c) ->
  exists s t,
    FindClosest startPoint direction spheres tMin tMax = Ret (s, t)
    /\ if Sphere_IsNull s then A c = 255
       else if fle (reflective s) zero || (recursionDepth <=? 0)
       then A c = A (color s)
       else exists out' c',
              reflectedTrace Exp Log fuel startPoint direction spheres lights
                recursionDepth tMax s t = Some (out', Ret c')
              /\ A c = A c'.
Proof.
  rewrite TraceRay_S.
  destruct (FindClosest _ _ _ _ _) as [[s t]|msg]; [|discriminate].
  intros H. exists s, t. split; [reflexivity|].
  destruct (Sphere_IsNull s).
  { injection H as _ <-. reflexivity. }
  destruct (hitLighting _ _ _ _ _ _ _ _) as [lv|msg]; [|discriminate].
  destruct (fle (reflective s) zero || (recursionDepth <=? 0)).
  { injection H as _ <-. reflexivity. }
  destruct (reflectedTrace _ _ _ _ _ _ _ _ _ _ _) as [[out' [c'|msg]]|];
    try discriminate.
  injection H as _ <-. exists out', c'. split; reflexivity.
Qed.

Lemma TraceRay_alpha_witness :
  exists s t,
    FindClosest main_start (vec 0 0 1) [mirror_sphere] (of_Z 1) math.MaxFloat64
    = Ret (s, t)
    /\ if Sphere_IsNull s then 255 = 255
       else if fle (reflective s) zero || (3 <=? 0)
       then 255 = A (color s)
       else exists out' c',
              reflectedTrace unused_transcendental unused_transcendental 3
                main_start (vec 0 0 1) [mirror_sphere] main_lights 3
                math.MaxFloat64 s t = Some (out', Ret c')
              /\ 255 = A c'.
Proof.
  apply (TraceRay_alpha unused_transcendental unused_transcendental 3
           main_start (vec 0 0 1) [mirror_sphere] main_lights 3 (of_Z 1)
           math.MaxFloat64 [] (mkColor 125 125 125 255)).
  reflexivity.
Defined.

(** ** Algebra of binary64 *)

Lemma fneg_involutive x : fneg (fneg x) = x.
Proof. destruct x; cbn; now rewrite ?negb_involutive. Qed.

Lemma fmul_comm x y : fmul x y = fmul y x.
Proof.
  unfold fmul. destruct x as [sx|sx| |sx mx ex], y as [sy|sy| |sy my ey];
    cbn [SFmul]; rewrite ?(xorb_comm sx sy); try reflexivity.
  now rewrite (Pos.mul_comm mx my), (Z.add_comm ex ey).
Qed.

Lemma fadd_comm x y : fadd x y = fadd y x.
Proof.
  unfold fadd. destruct x as [sx|sx| |sx mx ex], y as [sy|sy| |sy my ey];
    cbn [SFadd]; try destruct sx; try destruct sy; try reflexivity;
    rewrite (Z.min_comm ey ex); f_equal; apply Z.add_comm.
Qed.

Lemma fmul_neg_neg x : fmul (fneg x) (fneg x) = fmul x x.
Proof. destruct x as [s|s| |s m e]; try destruct s; reflexivity. Qed.

Lemma binary_round_aux_opp s m e l :
  binary_round_aux prec emax (negb s) m e l
  = SFopp (binary_round_aux prec emax s m e l).
Proof.
  unfold binary_round_aux.
  destruct (shr_fexp prec emax m e l) as [mrs1 e1].
  destruct (shr_fexp prec emax _ e1 loc_Exact) as [mrs2 e2].
  destruct (shr_m mrs2); try reflexivity.
  destruct (e2 <=? emax - prec); reflexivity.
Qed.

Lemma binary_round_opp s m e :
  binary_round prec emax (negb s) m e = SFopp (binary_round prec emax s m e).
Proof.
  unfold binary_round.
  destruct (shl_align m e _) as [mz ez]. apply binary_round_aux_opp.
Qed.

(** x - x is +0 for every finite x. *)
Lemma fsub_self x : is_finite x = true -> fsub x x = zero.
Proof.
  unfold fsub. destruct x as [s|s| |s m e]; try discriminate; intros _.
  - destruct s; reflexivity.
  - cbn [SFsub]. rewrite Z.sub_diag. reflexivity.
Qed.

(** y - x is the opposite of x - y, except that both are +0 when the
    operands are equal. *)
Lemma fsub_swap x y :
  fsub y x = fneg (fsub x y) \/ (fsub x y = zero /\ fsub y x = zero).
Proof.
  unfold fsub, fneg, zero.
  destruct x as [sx|sx| |sx mx ex], y as [sy|sy| |sy my ey];
    try (destruct sx, sy; cbn; auto; fail);
    try (destruct sx; cbn; auto; fail);
    try (destruct sy; cbn; auto; fail);
    try (cbn; rewrite ?negb_involutive; auto; fail).
  cbn [SFsub]. rewrite (Z.min_comm ey ex).
  set (ez := Z.min ex ey).
  set (a := cond_Zopp sx (Zpos (fst (shl_align mx ex ez)))).
  set (b := cond_Zopp sy (Zpos (fst (shl_align my ey ez)))).
  replace (b - a) with (- (a - b)) by lia.
  destruct (a - b) as [|p|p]; cbn [Z.opp binary_normalize].
  - right. auto.
  - left. apply (binary_round_opp false).
  - left. rewrite (binary_round_opp false). symmetry. apply fneg_involutive.
Qed.

Lemma feq_sym x y : feq x y = feq y x.
Proof.
  unfold feq, SFeqb.
  destruct (SFcompare x y) as [c|] eqn:E.
  - rewrite (SFcompare_swap _ _ _ E). now destruct c.
  - destruct (SFcompare y x) as [c|] eqn:E'; [|reflexivity].
    apply SFcompare_swap in E'. congruence.
Qed.

Lemma feq_refl_iff x : feq x x = negb (is_nan x).
Proof.
  unfold feq, SFeqb. destruct x as [s|s| |s m e]; cbn; try destruct s;
    try reflexivity; rewrite Z.compare_refl;
    change (Pos.compare_cont Eq m m) with (Pos.compare m m);
    now rewrite Pos.compare_refl.
Qed.

Lemma SFcompare_eq_trans x y z :
  SFcompare x y = Some Eq -> SFcompare y z = Some Eq -> SFcompare x z = Some Eq.
Proof.
  destruct x as [sx|sx| |sx mx ex], y as [sy|sy| |sy my ey],
           z as [sz|sz| |sz mz ez]; by_float_cases.
Qed.

Lemma fle_trans x y z : fle x y = true -> fle y z = true -> fle x z = true.
Proof.
  unfold fle, SFleb. intros H1 H2.
  destruct (SFcompare x y) as [[]|] eqn:E1; try discriminate;
    destruct (SFcompare y z) as [[]|] eqn:E2; try discriminate.
  - now rewrite (SFcompare_eq_trans _ _ _ E1 E2).
  - now rewrite (SFcompare_eq_lt_trans _ _ _ E1 E2).
  - now rewrite (SFcompare_lt_eq_trans _ _ _ E1 E2).
  - now rewrite (SFcompare_lt_trans _ _ _ E1 E2).
Qed.

(** ** Package [vector3]: laws of the operations *)

(** X16.  Negate undoes itself, on every value including NaN, infinities
    and signed zeros. *)
Theorem Negate_involutive v :
  vector3.Vector3_Negate (vector3.Vector3_Negate v) = v.
Proof.
  destruct v as [x y z]. unfold vector3.Vector3_Negate. cbn.
  now rewrite !fneg_involutive.
Qed.

(** X17.  Add is commutative: Add(v, w) and Add(w, v) are the same
    vector, a NaN component of the one being a NaN component of the other
    (the model has one NaN; which payload the hardware keeps is not
    stated).  The function and the method compute the same vector. *)
Theorem Add_commutative v w :
  vector3.Add v w = vector3.Add w v
  /\ vector3.Vector3_Add v w = vector3.Add w v.
Proof.
  unfold vector3.Add, vector3.Vector3_Add.
  now rewrite (fadd_comm (vector3.X v)), (fadd_comm (vector3.Y v)),
    (fadd_comm (vector3.Z v)).
Qed.

(** X18.  Dot is commutative: the products are formed from the same pairs
    and summed in the same order, so Dot(v, w) and Dot(w, v) are the same
    value, or both NaN (the model has one NaN; which payload the hardware
    keeps is not stated).  The function and the method compute the same
    value. *)
Theorem Dot_commutative v w :
  vector3.Dot v w = vector3.Dot w v
  /\ vector3.Vector3_Dot v w = vector3.Dot w v.
Proof.
  unfold vector3.Dot, vector3.Vector3_Dot.
  now rewrite (fmul_comm (vector3.X v)), (fmul_comm (vector3.Y v)),
    (fmul_comm (vector3.Z v)).
Qed.

Lemma square_of_difference_swap x y :
  fmul (fsub y x) (fsub y x) = fmul (fsub x y) (fsub x y).
Proof.
  destruct (fsub_swap x y) as [-> | [-> ->]]; [apply fmul_neg_neg | reflexivity].
Qed.

(** X19.  Distance is symmetric: Distance(a, b) and Distance(b, a) are
    the same value, or both NaN (the model has one NaN; which payload the
    hardware keeps is not stated). *)
Theorem Distance_symmetric a b :
  vector3.Distance a b = vector3.Distance b a.
Proof.
  unfold vector3.Distance.
  now rewrite (square_of_difference_swap (vector3.X a)),
    (square_of_difference_swap (vector3.Y a)),
    (square_of_difference_swap (vector3.Z a)).
Qed.

Lemma Sub_self v : Vec3_is_finite v = true -> vector3.Sub v v = Vec3_zero.
Proof.
  unfold Vec3_is_finite. intros H.
  apply andb_true_iff in H as [H Hz]. apply andb_true_iff in H as [Hx Hy].
  unfold vector3.Sub. now rewrite !fsub_self by assumption.
Qed.

(** X20.  The distance of a point with finite coordinates from itself is +0, and
    Sub gives the zero vector. *)
Theorem Distance_to_self v :
  Vec3_is_finite v = true ->
  vector3.Distance v v = zero /\ vector3.Sub v v = Vec3_zero.
Proof.
  intros H. split; [|now apply Sub_self].
  unfold Vec3_is_finite in H.
  apply andb_true_iff in H as [H Hz]. apply andb_true_iff in H as [Hx Hy].
  unfold vector3.Distance. now rewrite !fsub_self by assumption.
Qed.

Lemma Distance_to_self_witness :
  vector3.Distance (vec 1 (-2) 3) (vec 1 (-2) 3) = zero
  /\ vector3.Sub (vec 1 (-2) 3) (vec 1 (-2) 3) = Vec3_zero.
Proof. apply (Distance_to_self (vec 1 (-2) 3)). reflexivity. Defined.

(** X21.  Equals is symmetric; a vector equals itself exactly when none of its
    components is NaN. *)
Theorem Equals_symmetric_reflexive v w :
  vector3.Vector3_Equals v w = vector3.Vector3_Equals w v
  /\ vector3.Vector3_Equals v v = negb (Vec3_has_nan v).
Proof.
  unfold vector3.Vector3_Equals, Vec3_has_nan. split.
  - now rewrite (feq_sym (vector3.X v)), (feq_sym (vector3.Y v)),
      (feq_sym (vector3.Z v)).
  - rewrite !feq_refl_iff, !negb_orb. reflexivity.
Qed.

(** X22.  Normalize returns a zero vector as it is - whatever the signs of its
    zeros - without dividing. *)
Theorem Normalize_zero_vector v :
  feq (vector3.X v) zero = true ->
  feq (vector3.Y v) zero = true ->
  feq (vector3.Z v) zero = true ->
  vector3.Vector3_Normalize v = v
  /\ vector3.Vector3_Length v = zero.
Proof.
  destruct v as [x y z]. cbn [vector3.X vector3.Y vector3.Z].
  intros Hx Hy Hz.
  destruct x as [sx|sx| |sx mx ex]; try destruct sx; try discriminate;
  destruct y as [sy|sy| |sy my ey]; try destruct sy; try discriminate;
  destruct z as [sz|sz| |sz mz ez]; try destruct sz; try discriminate;
  split; reflexivity.
Qed.

Lemma Normalize_zero_vector_witness :
  vector3.Vector3_Normalize
    (vector3.mkVector3 (S754_zero true) zero (S754_zero true))
  = vector3.mkVector3 (S754_zero true) zero (S754_zero true)
  /\ vector3.Vector3_Length
       (vector3.mkVector3 (S754_zero true) zero (S754_zero true)) = zero.
Proof.
  apply (Normalize_zero_vector
           (vector3.mkVector3 (S754_zero true) zero (S754_zero true)));
    reflexivity.
Defined.

(** X23.  The cross product of a vector with itself is the zero vector, as long
    as the three products of its components are finite. *)
Theorem Cross_with_self v :
  is_finite (fmul (vector3.Y v) (vector3.Z v)) = true ->
  is_finite (fmul (vector3.Z v) (vector3.X v)) = true ->
  is_finite (fmul (vector3.X v) (vector3.Y v)) = true ->
  vector3.Cross v v = Vec3_zero.
Proof.
  intros H1 H2 H3. unfold vector3.Cross.
  rewrite (fmul_comm (vector3.Z v) (vector3.Y v)),
    (fmul_comm (vector3.X v) (vector3.Z v)),
    (fmul_comm (vector3.Y v) (vector3.X v)).
  now rewrite !fsub_self by assumption.
Qed.

Lemma Cross_with_self_witness :
  vector3.Cross (vec 1 (-2) 3) (vec 1 (-2) 3) = Vec3_zero.
Proof. apply (Cross_with_self (vec 1 (-2) 3)); reflexivity. Defined.

(** Multiplying a float64 value by 1 gives the value back. *)
Lemma fmul_one x : is_binary64 x = true -> fmul x one = x.
Proof.
  unfold is_binary64, fmul, one.
  destruct x as [s|s| |s m e]; try (destruct s; reflexivity); try reflexivity.
  cbn [valid_binary]. intros Hb.
  pose proof (valid_finite_bounds m e Hb) as (Dm & Em & _).
  unfold bounded, canonical_mantissa in Hb.
  apply andb_true_iff in Hb as [Hc Hle]. apply Z.eqb_eq in Hc.
  cbn [SFmul]. rewrite xorb_false_r.
  rewrite (Pos.mul_comm m).
  change (Pos.mul 4503599627370496 m) with (Pos.iter xO m 52).
  unfold binary_round_aux, shr_fexp. cbn [Zdigits2].
  rewrite digits2_pos_shift.
  replace (Zpos (digits2_pos m) + 52 + (e + -52)) with (Zpos (digits2_pos m) + e) by lia.
  rewrite Hc. replace (e - (e + -52)) with 52 by lia.
  cbn [shr shr_record_of_loc].
  change (iter_pos shr_1 52 {| shr_m := Zpos (Pos.iter xO m 52); shr_r := false; shr_s := false |})
    with {| shr_m := Zpos m; shr_r := false; shr_s := false |}.
  cbn [loc_of_shr_record shr_m round_nearest_even Zdigits2].
  replace (e + -52 + 52) with e by lia.
  rewrite Hc, Z.sub_diag. cbn [shr shr_record_of_loc shr_m].
  now rewrite Hle.
Qed.

(** ** Sums of squares *)

Lemma binary_round_aux_not_negative m e l :
  not_negative (binary_round_aux prec emax false m e l) = true.
Proof.
  unfold binary_round_aux.
  destruct (shr_fexp prec emax m e l) as [mrs1 e1].
  destruct (shr_fexp prec emax _ e1 loc_Exact) as [mrs2 e2].
  destruct (shr_m mrs2); try reflexivity.
  destruct (e2 <=? emax - prec); reflexivity.
Qed.

Lemma binary_round_not_negative m e :
  not_negative (binary_round prec emax false m e) = true.
Proof.
  unfold binary_round. destruct (shl_align m e _) as [mz ez].
  apply binary_round_aux_not_negative.
Qed.

Lemma fmul_self_not_negative x : not_negative (fmul x x) = true.
Proof.
  unfold fmul. destruct x as [s|s| |s m e]; try destruct s; try reflexivity;
    cbn [SFmul xorb]; apply binary_round_aux_not_negative.
Qed.

Lemma fadd_not_negative x y :
  not_negative x = true -> not_negative y = true ->
  not_negative (fadd x y) = true.
Proof.
  unfold fadd.
  destruct x as [sx|sx| |sx mx ex], y as [sy|sy| |sy my ey];
    try destruct sx; try destruct sy; try discriminate; try reflexivity.
  intros _ _. cbn [SFadd cond_Zopp].
  apply binary_round_not_negative.
Qed.

Lemma digits2_pos_mono p q :
  (p <= q)%positive -> Zpos (digits2_pos p) <= Zpos (digits2_pos q).
Proof.
  intros H.
  pose proof (digits2_pos_bounds p) as [Lp _].
  pose proof (digits2_pos_bounds q) as [_ Hq].
  destruct (Z_lt_le_dec (Zpos (digits2_pos q)) (Zpos (digits2_pos p)))
    as [Hlt|]; [|assumption].
  assert (2 ^ Zpos (digits2_pos q) <= 2 ^ (Zpos (digits2_pos p) - 1))
    by (apply Z.pow_le_mono_r; lia).
  lia.
Qed.

(** Rounding a mantissa whose value is at least 2^-1074 never gives 0. *)
Lemma binary_round_aux_nonzero s m e l :
  0 <= m -> e <= fexp prec emax (Zdigits2 m + e) ->
  -1073 <= Zdigits2 m + e ->
  feq (binary_round_aux prec emax s m e l) zero = false.
Proof.
  intros Hm Hn Hv. unfold binary_round_aux.
  pose proof (shr_fexp_spec m e l Hm Hn) as H1.
  destruct (shr_fexp prec emax m e l) as [mrs1 e1].
  destruct H1 as (He1 & Hm1 & Hd1).
  set (q := round_nearest_even (shr_m mrs1) (loc_of_shr_record mrs1)).
  assert (Hq : 0 <= q /\ Zdigits2 (shr_m mrs1) <= Zdigits2 q).
  { subst q. unfold round_nearest_even.
    destruct (loc_of_shr_record mrs1) as [|[]]; try (split; lia).
    - destruct (Z.even (shr_m mrs1)); [split; lia|].
      split; [lia | now apply Zdigits2_succ].
    - split; [lia | now apply Zdigits2_succ]. }
  destruct Hq as [Hq0 Hqd].
  assert (Hn2 : e1 <= fexp prec emax (Zdigits2 q + e1)).
  { rewrite He1 at 1. apply fexp_mono. lia. }
  pose proof (shr_fexp_spec q e1 loc_Exact Hq0 Hn2) as H2.
  destruct (shr_fexp prec emax q e1 loc_Exact) as [mrs2 e2].
  destruct H2 as (He2 & Hm2 & Hd2).
  assert (Hpos : 0 < Zdigits2 (shr_m mrs2)).
  { rewrite Hd2, He2. rewrite Hd1, He1 in Hqd.
    unfold fexp, emin, prec, emax in *. lia. }
  destruct (shr_m mrs2) as [|p|p]; cbn in Hpos; try lia.
  destruct (e2 <=? emax - prec); destruct s; reflexivity.
Qed.

Lemma binary_round_nonzero s p e :
  -1073 <= Zpos (digits2_pos p) + e ->
  feq (binary_round prec emax s p e) zero = false.
Proof.
  intros Hv. unfold binary_round, shl_align.
  set (f := fexp prec emax (Zpos (digits2_pos p) + e)).
  destruct (f - e) as [|d|d] eqn:Ed.
  - apply binary_round_aux_nonzero; cbn [Zdigits2]; try fold f; lia.
  - apply binary_round_aux_nonzero; cbn [Zdigits2]; try fold f; lia.
  - apply binary_round_aux_nonzero; cbn [Zdigits2]; try lia;
      rewrite digits2_pos_shift;
      replace (Zpos (digits2_pos p) + Zpos d + f)
        with (Zpos (digits2_pos p) + e) by lia;
      try fold f; lia.
Qed.

(** s + 1 is not 0 when s is not negative. *)
Lemma fadd_one_nonzero s :
  not_negative s = true -> feq (fadd s one) zero = false.
Proof.
  unfold fadd, one.
  destruct s as [ss|ss| |ss m e]; try destruct ss; try discriminate;
    try reflexivity.
  intros _. cbn [SFadd cond_Zopp].
  set (ez := Z.min e (-52)).
  set (p1 := fst (shl_align m e ez)).
  set (p2 := fst (shl_align 4503599627370496 (-52) ez)).
  change (Zpos p1 + Zpos p2) with (Zpos (p1 + p2)).
  cbn [binary_normalize]. apply binary_round_nonzero.
  assert (H2 : Zpos (digits2_pos p2) + ez = 1).
  { subst p2. unfold shl_align.
    destruct (ez - -52) as [|d|d] eqn:Ed; cbn [fst].
    - replace ez with (-52) by lia. reflexivity.
    - subst ez. lia.
    - rewrite digits2_pos_shift. change (Zpos (digits2_pos 4503599627370496)) with 53. lia. }
  pose proof (digits2_pos_mono p2 (p1 + p2) ltac:(lia)). lia.
Qed.

(** A direction whose z component is exactly 1 has a squared length
    different from 0, whatever its x and y (NaN and infinities included). *)
Lemma Dot_self_nonzero_z_one d :
  vector3.Z d = one -> feq (vector3.Dot d d) zero = false.
Proof.
  intros Hz. unfold vector3.Dot. rewrite Hz.
  change (fmul one one) with one.
  apply fadd_one_nonzero, fadd_not_negative; apply fmul_self_not_negative.
Qed.

Lemma fsub_valid_r x y :
  is_binary64 y = true -> is_finite y = true -> feq y zero = false ->
  is_binary64 (fsub x y) = true.
Proof.
  unfold is_binary64, fsub. intros Hy Hf Hz.
  destruct y as [sy|sy| |sy my ey]; try discriminate Hf;
    [destruct sy; discriminate Hz|].
  destruct x as [sx|sx| |sx mx ex]; cbn [SFsub]; auto using binary_normalize_valid.
Qed.

Lemma fsub_valid_l x y :
  is_binary64 x = true -> is_finite x = true -> feq x zero = false ->
  is_binary64 (fsub x y) = true.
Proof.
  unfold is_binary64, fsub. intros Hx Hf Hz.
  destruct x as [sx|sx| |sx mx ex]; try discriminate Hf;
    [destruct sx; discriminate Hz|].
  destruct y as [sy|sy| |sy my ey]; cbn [SFsub]; auto using binary_normalize_valid.
Qed.

(** X14.  Every camera ray of [main]: its squared length is not 0, so neither
    the zero-direction warning nor the panic of ComputeIntersection can
    occur on a primary ray, for any pixel and any scene. *)
Theorem main_camera_ray_never_degenerate row col :
  feq (vector3.Dot (main_rayDirection row col) (main_rayDirection row col)) zero
  = false
  /\ warningLog (main_rayDirection row col) = []
  /\ forall spheres tMin tMax,
       exists s t,
         FindClosest main_start (main_rayDirection row col) spheres tMin tMax
         = Ret (s, t).
Proof.
  assert (Ha : feq (vector3.Dot (main_rayDirection row col)
                      (main_rayDirection row col)) zero = false).
  { apply Dot_self_nonzero_z_one. reflexivity. }
  split; [exact Ha|]. split.
  - unfold warningLog.
    destruct (feq (vector3.Vector3_Length (main_rayDirection row col)) zero)
      eqn:El; [|reflexivity].
    apply Length_zero_only_of_zero_square in El; [congruence|].
    unfold Vec3_is_binary64, main_rayDirection.
    cbn [vector3.X vector3.Y vector3.Z].
    rewrite fsub_valid_r, fsub_valid_l; reflexivity.
  - intros spheres tMin tMax.
    destruct (FindClosest_loop_spec main_start _ tMin tMax Ha spheres
                nullSphere math.MaxFloat64 MaxFloat64_not_nan)
      as (s & t & Heq & _).
    exists s, t. exact Heq.
Qed.

(** ** FindClosest: errors, intervals and the "no real root" pair *)

Lemma flt_not_fle x y : flt x y = true -> fle y x = false.
Proof.
  unfold flt, fle, SFltb, SFleb.
  destruct (SFcompare x y) as [c|] eqn:E; try discriminate.
  rewrite (SFcompare_swap _ _ _ E). now destruct c.
Qed.

Lemma flt_irrefl x : flt x x = false.
Proof.
  destruct (flt x x) eqn:E; [|reflexivity].
  pose proof (flt_not_fle _ _ E) as H. now rewrite (flt_fle _ _ E) in H.
Qed.

Lemma FindClosest_Panic_inv startPoint direction spheres tMin tMax msg :
  FindClosest startPoint direction spheres tMin tMax = Panic msg ->
  msg = intersection_panic /\ spheres <> []
  /\ feq (vector3.Dot direction direction) zero = true.
Proof.
  intros H. destruct spheres as [|sphere rest]; [discriminate|].
  destruct (feq (vector3.Dot direction direction) zero) eqn:Ha.
  - unfold FindClosest in H.
    rewrite (FindClosest_loop_panics _ _ _ _ _ _ _ _ Ha) in H.
    injection H as <-. repeat split. discriminate.
  - destruct (FindClosest_loop_spec startPoint direction tMin tMax Ha
                (sphere :: rest) nullSphere math.MaxFloat64 MaxFloat64_not_nan)
      as (s & t & Heq & _).
    unfold FindClosest in H. congruence.
Qed.

(** X1.  FindClosest panics exactly when the scene is not empty and the
    squared length of the direction is 0, and then with the message of
    ComputeIntersection; on an empty scene it never panics. *)
Theorem FindClosest_panics_iff startPoint direction spheres tMin tMax msg :
  FindClosest startPoint direction spheres tMin tMax = Panic msg
  <-> msg = intersection_panic /\ spheres <> []
      /\ feq (vector3.Dot direction direction) zero = true.
Proof.
  split; [apply FindClosest_Panic_inv|].
  intros (-> & Hne & Ha). destruct spheres as [|sphere rest]; [congruence|].
  unfold FindClosest. now rewrite (FindClosest_loop_panics _ _ _ _ _ _ _ _ Ha).
Qed.

(** X2.  Scanning a scene made of two parts is scanning the first part and
    going on through the second from the pair found so far; a panic in the
    first part is the panic of the whole. *)
Theorem FindClosest_append startPoint direction xs ys tMin tMax :
  FindClosest startPoint direction (xs ++ ys) tMin tMax
  = '(s, t) <- FindClosest startPoint direction xs tMin tMax ;;
    FindClosest_loop startPoint direction ys tMin tMax s t.
Proof.
  unfold FindClosest. generalize nullSphere math.MaxFloat64.
  induction xs as [|x xs IH]; intros cs ct; [reflexivity|].
  cbn [app FindClosest_loop].
  destruct (Sphere_ComputeIntersection x startPoint direction) as [[t1 t2]|m];
    [|reflexivity].
  cbn [bind].
  destruct (closer tMin tMax ct t1);
    match goal with |- context [closer tMin tMax ?c t2] =>
      destruct (closer tMin tMax c t2) end; apply IH.
Qed.

(** X3.  With an interval that holds no number - tMin above tMax, or a bound
    that is NaN - FindClosest finds nothing. *)
Theorem FindClosest_empty_interval startPoint direction spheres tMin tMax :
  fle tMin tMax = false ->
  feq (vector3.Dot direction direction) zero = false \/ spheres = [] ->
  FindClosest startPoint direction spheres tMin tMax
  = Ret (nullSphere, math.MaxFloat64).
Proof.
  intros Hempty [Ha| ->]; [|reflexivity].
  apply FindClosest_loop_unchanged. intros s _.
  destruct (ComputeIntersection_returns s startPoint _ Ha) as (t1 & t2 & HI).
  exists t1, t2. split; [exact HI|].
  assert (Hout : forall t, closer tMin tMax math.MaxFloat64 t = false).
  { intros t. rewrite closer_split.
    destruct (in_interval tMin tMax t) eqn:Hi; [|reflexivity].
    apply andb_true_iff in Hi as [H1 H2].
    rewrite (fle_trans tMin t tMax H1 H2) in Hempty. discriminate. }
  split; apply Hout.
Qed.

Lemma FindClosest_empty_interval_witness :
  FindClosest main_start (main_rayDirection 1024 1024) main_spheres
    (of_Z 5) (of_Z 1)
  = Ret (nullSphere, math.MaxFloat64).
Proof.
  apply (FindClosest_empty_interval main_start (main_rayDirection 1024 1024)
           main_spheres (of_Z 5) (of_Z 1)).
  - reflexivity.
  - left. reflexivity.
Defined.

(** X4.  A sphere for which ComputeIntersection reports no real root - the
    pair (-1, -1) - does not change the search when tMin is above -1. *)
Theorem FindClosest_skips_no_root_pair
    startPoint direction sphere rest tMin tMax cs ct :
  Sphere_ComputeIntersection sphere startPoint direction
  = Ret (of_Z (-1), of_Z (-1)) ->
  flt (of_Z (-1)) tMin = true ->
  FindClosest_loop startPoint direction (sphere :: rest) tMin tMax cs ct
  = FindClosest_loop startPoint direction rest tMin tMax cs ct.
Proof.
  intros HI Hmin. cbn [FindClosest_loop]. rewrite HI. cbn [bind].
  assert (Hc : forall c, closer tMin tMax c (of_Z (-1)) = false).
  { intros c. unfold closer.
    change (fge (of_Z (-1)) tMin) with (fle tMin (of_Z (-1))).
    now rewrite (flt_not_fle _ _ Hmin). }
  now rewrite !Hc.
Qed.

Lemma FindClosest_skips_no_root_pair_witness :
  FindClosest_loop main_start (main_rayDirection 1024 10) main_spheres
    (of_Z 1) math.MaxFloat64 nullSphere math.MaxFloat64
  = FindClosest_loop main_start (main_rayDirection 1024 10) (tl main_spheres)
      (of_Z 1) math.MaxFloat64 nullSphere math.MaxFloat64.
Proof.
  apply (FindClosest_skips_no_root_pair main_start (main_rayDirection 1024 10)
           (hd nullSphere main_spheres) (tl main_spheres) (of_Z 1)
           math.MaxFloat64 nullSphere math.MaxFloat64).
  - reflexivity.
  - reflexivity.
Defined.

(** X5.  When the interval contains -1, the pair (-1, -1) counts as a hit: if
    ComputeIntersection reports no real root for every sphere of a
    non-empty scene, FindClosest returns the first sphere at t = -1. *)
Theorem FindClosest_returns_no_root_pair
    startPoint direction sphere rest tMin tMax :
  (forall s, In s (sphere :: rest) ->
     Sphere_ComputeIntersection s startPoint direction
     = Ret (of_Z (-1), of_Z (-1))) ->
  in_interval tMin tMax (of_Z (-1)) = true ->
  FindClosest startPoint direction (sphere :: rest) tMin tMax
  = Ret (sphere, of_Z (-1)).
Proof.
  intros Hall Hin. unfold FindClosest. cbn [FindClosest_loop].
  rewrite (Hall sphere (or_introl eq_refl)). cbn [bind].
  assert (H1 : closer tMin tMax math.MaxFloat64 (of_Z (-1)) = true).
  { rewrite closer_split, Hin. reflexivity. }
  assert (H2 : closer tMin tMax (of_Z (-1)) (of_Z (-1)) = false).
  { rewrite closer_split, flt_irrefl. apply andb_false_r. }
  rewrite H1, H2.
  apply FindClosest_loop_unchanged. intros s Hs.
  exists (of_Z (-1)), (of_Z (-1)).
  split; [apply Hall; now right | split; exact H2].
Qed.

Lemma FindClosest_returns_no_root_pair_witness :
  FindClosest main_start (main_rayDirection 1024 10)
    [hd nullSphere main_spheres] (of_Z (-2)) math.MaxFloat64
  = Ret (hd nullSphere main_spheres, of_Z (-1)).
Proof.
  apply (FindClosest_returns_no_root_pair main_start
           (main_rayDirection 1024 10) (hd nullSphere main_spheres) []
           (of_Z (-2)) math.MaxFloat64).
  - intros s [<-|[]]. reflexivity.
  - reflexivity.
Defined.

(** X6.  The radius enters the intersection only squared and the null test
    only through its absolute value: negating it changes neither. *)
Theorem radius_sign_is_ignored s startPoint direction :
  Sphere_ComputeIntersection (negate_radius s) startPoint direction
  = Sphere_ComputeIntersection s startPoint direction
  /\ Sphere_IsNull (negate_radius s) = Sphere_IsNull s.
Proof.
  split.
  - unfold Sphere_ComputeIntersection, negate_radius.
    cbn [radius center]. now rewrite fmul_neg_neg.
  - unfold Sphere_IsNull, negate_radius. cbn [radius center].
    f_equal. f_equal.
    destruct (radius s) as [r|r| |r m e]; try destruct r; reflexivity.
Qed.

(** ** ComputeLighting: degenerate shadow rays, panics, sums *)

Section LightingMore.
Variables Exp Log : float -> float.

(** X7.  A light whose type is neither Point nor Ambient keeps the zero light
    direction: on any non-empty scene its shadow test panics in
    ComputeIntersection. *)
Theorem ComputeLighting_unknown_type_panics
    light point normal inverseDir specular sphere rest :
  lightType light <> Ambient -> lightType light <> Point ->
  Light_ComputeLighting Exp Log light point normal inverseDir specular
    (sphere :: rest)
  = Panic intersection_panic.
Proof.
  intros HA HP. unfold Light_ComputeLighting.
  apply Z.eqb_neq in HA, HP. rewrite HA, HP.
  unfold FindClosest.
  rewrite FindClosest_loop_panics by reflexivity. reflexivity.
Qed.

(** X8.  A point light placed exactly at the shaded point (finite coordinates)
    gives a zero light direction: on any non-empty scene ComputeLighting
    panics in ComputeIntersection instead of returning an intensity. *)
Theorem ComputeLighting_light_at_point_panics
    light point normal inverseDir specular sphere rest :
  lightType light = Point ->
  position light = point ->
  Vec3_is_finite point = true ->
  Light_ComputeLighting Exp Log light point normal inverseDir specular
    (sphere :: rest)
  = Panic intersection_panic.
Proof.
  intros Hk Hp Hf.
  rewrite (ComputeLighting_point Exp Log _ _ _ _ _ _ Hk), Hp.
  rewrite (Sub_self point Hf).
  unfold FindClosest.
  rewrite FindClosest_loop_panics by reflexivity. reflexivity.
Qed.

(** ComputeLighting panics with one of two messages only. *)
Lemma ComputeLighting_panic_messages
    light point normal inverseDir specular spheres msg :
  Light_ComputeLighting Exp Log light point normal inverseDir specular spheres
  = Panic msg ->
  msg = intersection_panic \/ msg = lighting_panic.
Proof.
  unfold Light_ComputeLighting.
  destruct (lightType light =? Ambient); [discriminate|].
  destruct (lightType light =? Point);
    (destruct (FindClosest _ _ _ _ _) as [[s t]|m] eqn:Ef; cbn [bind];
     [|intros H; injection H as <-; left;
       apply FindClosest_Panic_inv in Ef; tauto];
     destruct (Sphere_IsNull s); [|discriminate];
     destruct (fgt specular (of_Z (-1))); [|discriminate];
     match goal with |- context [if ?c then Panic _ else _] => destruct c end;
     [|discriminate];
     intros H; injection H as <-; now right).
Qed.

(** X9.  Summing over two lists of lights is summing over the first and going
    on from its value through the second; the first panic is the panic of
    the whole. *)
Theorem sumLighting_append
    lights1 lights2 point normal inverseDir specular spheres lightVal :
  sumLighting Exp Log (lights1 ++ lights2) point normal inverseDir specular
    spheres lightVal
  = v <- sumLighting Exp Log lights1 point normal inverseDir specular spheres
           lightVal ;;
    sumLighting Exp Log lights2 point normal inverseDir specular spheres v.
Proof.
  revert lightVal. induction lights1 as [|l ls IH]; intros lightVal;
    [reflexivity|].
  cbn [app sumLighting].
  destruct (Light_ComputeLighting Exp Log l point normal inverseDir specular
              spheres) as [v|m]; [|reflexivity].
  cbn [bind]. apply IH.
Qed.

(** X10.  Ambient lights alone never panic, whatever the scene and the point:
    the light value is the left-to-right sum of their intensities. *)
Theorem sumLighting_ambient_only
    lights point normal inverseDir specular spheres lightVal :
  Forall (fun l => lightType l = Ambient) lights ->
  sumLighting Exp Log lights point normal inverseDir specular spheres lightVal
  = Ret (fold_left fadd (map intensity lights) lightVal).
Proof.
  intros H. revert lightVal.
  induction H as [|l ls Hl _ IH]; intros lightVal; [reflexivity|].
  cbn [sumLighting map fold_left].
  rewrite (ComputeLighting_ambient Exp Log _ _ _ _ _ _ Hl). cbn [bind].
  apply IH.
Qed.

Lemma sumLighting_panic_messages
    lights point normal inverseDir specular spheres lightVal msg :
  sumLighting Exp Log lights point normal inverseDir specular spheres lightVal
  = Panic msg ->
  msg = intersection_panic \/ msg = lighting_panic.
Proof.
  revert lightVal. induction lights as [|l ls IH]; intros lightVal;
    [discriminate|].
  cbn [sumLighting].
  destruct (Light_ComputeLighting Exp Log l point normal inverseDir specular
              spheres) as [v|m] eqn:E; cbn [bind].
  - apply IH.
  - intros H. injection H as <-.
    eapply ComputeLighting_panic_messages, E.
Qed.
End LightingMore.

Lemma ComputeLighting_unknown_type_panics_witness :
  Light_ComputeLighting unused_transcendental unused_transcendental
    (mkLight 2 (vec 0 0 2) (of_Z 1)) (vec 0 0 1) (vec 0 0 1) (vec 0 0 2)
    (of_Z 2) main_spheres
  = Panic intersection_panic.
Proof.
  apply (ComputeLighting_unknown_type_panics
           unused_transcendental unused_transcendental
           (mkLight 2 (vec 0 0 2) (of_Z 1)) (vec 0 0 1) (vec 0 0 1) (vec 0 0 2)
           (of_Z 2) (hd nullSphere main_spheres) (tl main_spheres));
    discriminate.
Defined.

Lemma ComputeLighting_light_at_point_panics_witness :
  Light_ComputeLighting unused_transcendental unused_transcendental
    (mkLight Point (vec 0 0 1) (of_Z 1)) (vec 0 0 1) (vec 0 0 1) (vec 0 0 2)
    (of_Z 2) main_spheres
  = Panic intersection_panic.
Proof.
  apply (ComputeLighting_light_at_point_panics
           unused_transcendental unused_transcendental
           (mkLight Point (vec 0 0 1) (of_Z 1)) (vec 0 0 1) (vec 0 0 1)
           (vec 0 0 2) (of_Z 2) (hd nullSphere main_spheres)
           (tl main_spheres));
    reflexivity.
Defined.

Lemma sumLighting_ambient_only_witness :
  sumLighting unused_transcendental unused_transcendental
    [dark_ambient; dark_ambient] (vec 0 0 1) (vec 0 0 1) (vec 0 0 2) (of_Z 2)
    main_spheres zero
  = Ret (of_Z (-2)).
Proof.
  apply (sumLighting_ambient_only unused_transcendental unused_transcendental
           [dark_ambient; dark_ambient] (vec 0 0 1) (vec 0 0 1) (vec 0 0 2)
           (of_Z 2) main_spheres zero).
  repeat constructor.
Defined.

(** ** TraceRay: what it prints, how it panics, the extremes of light *)

Lemma to_uint8_times_float_zero n :
  0 <= n < 256 -> to_uint8 (fmul (of_Z n) zero) = 0.
Proof.
  intros Hn. apply Z.eqb_eq.
  apply (all_uint8 (fun n => to_uint8 (fmul (of_Z n) zero) =? 0));
    [vm_compute; reflexivity | exact Hn].
Qed.

Lemma SFcompare_Eq_finite s m e s' m' e' :
  SFcompare (S754_finite s m e) (S754_finite s' m' e') = Some Eq ->
  S754_finite s m e = S754_finite s' m' e'.
Proof.
  cbn [SFcompare]. destruct s, s'; intros H; cmp_cases; try discriminate;
    subst; reflexivity.
Qed.

(** Min(1, v) is 1 as soon as 1 <= v. *)
Lemma Min_MaxIntensity_saturates v :
  fle one v = true -> math.Min MaxIntensity v = one.
Proof.
  intros Hle. unfold math.Min, MaxIntensity.
  destruct v as [s|s| |s m e]; try (destruct s; discriminate Hle || reflexivity);
    try discriminate Hle.
  change (math.IsInf one (-1) || math.IsInf (S754_finite s m e) (-1)) with false.
  change (math.IsNaN one || math.IsNaN (S754_finite s m e)) with false.
  change (feq one zero) with false. cbn [andb].
  destruct (flt one (S754_finite s m e)) eqn:Hlt; [reflexivity|].
  revert Hle Hlt. unfold fle, flt, SFleb, SFltb, one.
  destruct (SFcompare _ (S754_finite s m e)) as [[]|] eqn:E; try discriminate.
  intros _ _. symmetry. now apply SFcompare_Eq_finite.
Qed.

Lemma scaleRGB_one c : rgb_in_range c -> scaleRGB c one = c.
Proof.
  intros (Hr & Hg & Hb). destruct c as [r g b a]. unfold scaleRGB.
  cbn [R G B A] in *. now rewrite !to_uint8_times_one by assumption.
Qed.

Lemma scaleRGB_zero c :
  rgb_in_range c -> scaleRGB c zero = mkColor 0 0 0 (A c).
Proof.
  intros (Hr & Hg & Hb). unfold scaleRGB.
  now rewrite !to_uint8_times_float_zero by assumption.
Qed.

Section TraceRayMore.
Variables Exp Log : float -> float.

(** X11.  Without lights, a hit that is not blended with a reflection is black,
    with the alpha of the sphere. *)
Theorem TraceRay_no_lights_black
    fuel startPoint direction spheres recursionDepth tMin tMax s t :
  FindClosest startPoint direction spheres tMin tMax = Ret (s, t) ->
  Sphere_IsNull s = false ->
  fle (reflective s) zero || (recursionDepth <=? 0) = true ->
  rgb_in_range (color s) ->
  TraceRay Exp Log (S fuel) startPoint direction spheres [] recursionDepth
    tMin tMax
  = Some (warningLog direction, Ret (mkColor 0 0 0 (A (color s)))).
Proof.
  intros Hfind Hnull Hflat Hc.
  rewrite TraceRay_S, Hfind, Hnull. unfold hitLighting. cbn [sumLighting].
  rewrite Hflat. unfold localShade.
  change (math.Min MaxIntensity zero) with zero.
  now rewrite scaleRGB_zero.
Qed.

(** X12.  With a summed light value of 1 or more, a hit that is not blended with
    a reflection shows the color of the sphere unchanged. *)
Theorem TraceRay_full_light_base_color
    fuel startPoint direction spheres lights recursionDepth tMin tMax
    s t lightVal :
  FindClosest startPoint direction spheres tMin tMax = Ret (s, t) ->
  Sphere_IsNull s = false ->
  hitLighting Exp Log startPoint direction spheres lights s t = Ret lightVal ->
  fle one lightVal = true ->
  fle (reflective s) zero || (recursionDepth <=? 0) = true ->
  rgb_in_range (color s) ->
  TraceRay Exp Log (S fuel) startPoint direction spheres lights recursionDepth
    tMin tMax
  = Some (warningLog direction, Ret (color s)).
Proof.
  intros Hfind Hnull Hlight Hfull Hflat Hc.
  rewrite TraceRay_S, Hfind, Hnull, Hlight, Hflat. unfold localShade.
  now rewrite (Min_MaxIntensity_saturates _ Hfull), scaleRGB_one.
Qed.

(** X13.  Whatever TraceRay does, it prints nothing but the zero-direction
    warning, and when it panics the message is one of the two of the
    kernel. *)
Theorem TraceRay_prints_and_panics fuel :
  forall startPoint direction spheres lights recursionDepth tMin tMax out r,
  TraceRay Exp Log fuel startPoint direction spheres lights recursionDepth
    tMin tMax = Some (out, r) ->
  Forall (fun line => line = zero_direction_warning) out
  /\ forall msg, r = Panic msg ->
       msg = intersection_panic \/ msg = lighting_panic.
Proof.
  induction fuel as [|fuel IH];
    intros o d spheres lights depth tMin tMax out r H; [discriminate|].
  rewrite TraceRay_S in H.
  assert (Hw : Forall (fun line => line = zero_direction_warning) (warningLog d)).
  { unfold warningLog. destruct (feq _ zero); repeat constructor. }
  destruct (FindClosest o d spheres tMin tMax) as [[s t]|m] eqn:Ef.
  2:{ injection H as <- <-. split; [exact Hw|].
      intros msg Hm. injection Hm as <-.
      apply FindClosest_Panic_inv in Ef. tauto. }
  destruct (Sphere_IsNull s).
  { injection H as <- <-. split; [exact Hw | discriminate]. }
  destruct (hitLighting Exp Log o d spheres lights s t) as [lv|m] eqn:El.
  2:{ injection H as <- <-. split; [exact Hw|].
      intros msg Hm. injection Hm as <-.
      unfold hitLighting in El.
      exact (sumLighting_panic_messages Exp Log _ _ _ _ _ _ _ _ El). }
  destruct (fle (reflective s) zero || (depth <=? 0)).
  { injection H as <- <-. split; [exact Hw | discriminate]. }
  unfold reflectedTrace in H.
  destruct (TraceRay Exp Log fuel _ _ _ _ _ _ _) as [[out' r']|] eqn:Er;
    [|discriminate].
  destruct (IH _ _ _ _ _ _ _ _ _ Er) as [Hout' Hr'].
  destruct r' as [c'|m]; injection H as <- <-.
  - split; [apply Forall_app; auto | discriminate].
  - split; [apply Forall_app; auto|]. exact Hr'.
Qed.
End TraceRayMore.

Lemma TraceRay_no_lights_black_witness :
  TraceRay unused_transcendental unused_transcendental 4 main_start
    (main_rayDirection 1024 2000) main_spheres [] 3 (of_Z 1) math.MaxFloat64
  = Some ([], Ret (mkColor 0 0 0 255)).
Proof.
  apply (TraceRay_no_lights_black unused_transcendental unused_transcendental
           3 main_start (main_rayDirection 1024 2000) main_spheres 3 (of_Z 1)
           math.MaxFloat64 (nth 3 main_spheres nullSphere)
           (S754_finite false 4741064677170957 (-52))).
  - reflexivity.
  - reflexivity.
  - reflexivity.
  - repeat split; cbn; lia.
Defined.

Lemma TraceRay_full_light_base_color_witness :
  TraceRay unused_transcendental unused_transcendental 4 main_start
    (main_rayDirection 1024 2000) main_spheres
    [mkLight Ambient (vec 0 0 0) (of_Z 2)] 3 (of_Z 1) math.MaxFloat64
  = Some ([], Ret (mkColor 255 255 0 255)).
Proof.
  apply (TraceRay_full_light_base_color
           unused_transcendental unused_transcendental
           3 main_start (main_rayDirection 1024 2000) main_spheres
           [mkLight Ambient (vec 0 0 0) (of_Z 2)] 3 (of_Z 1)
           math.MaxFloat64 (nth 3 main_spheres nullSphere)
           (S754_finite false 4741064677170957 (-52)) (of_Z 2)).
  - reflexivity.
  - reflexivity.
  - reflexivity.
  - reflexivity.
  - reflexivity.
  - repeat split; cbn; lia.
Defined.

Lemma TraceRay_prints_and_panics_witness :
  Forall (fun line => line = zero_direction_warning) [zero_direction_warning]
  /\ forall msg,
       @Panic Color intersection_panic = Panic msg ->
       msg = intersection_panic \/ msg = lighting_panic.
Proof.
  apply (TraceRay_prints_and_panics unused_transcendental unused_transcendental
           4 main_start (vec 0 0 0) main_spheres main_lights 3 (of_Z 1)
           math.MaxFloat64 [zero_direction_warning] (Panic intersection_panic)).
  reflexivity.
Defined.

(** ** The render driver: which worker sets which pixel *)

Lemma int64_small n :
  -9223372036854775808 <= n < 9223372036854775808 -> int64 n = n.
Proof. intros H. unfold int64. rewrite Z.mod_small; lia. Qed.

(** The loop of worker rows from [row]: it ends within h - row steps and
    visits row, row + cpus, row + 2 cpus, ... below h, each once. *)
Lemma worker_rows_from cpus h :
  0 < cpus -> h + cpus < 9223372036854775808 ->
  forall fuel row,
  -9223372036854775808 <= row ->
  (Z.to_nat (h - row) < fuel)%nat ->
  exists rows,
    worker_rows fuel row cpus h = Some rows
    /\ NoDup rows
    /\ forall r, In r rows <->
         r < h /\ exists k, 0 <= k /\ r = row + k * cpus.
Proof.
  intros Hc Hmax. induction fuel as [|fuel IH]; intros row Hrow Hf; [lia|].
  cbn [worker_rows]. destruct (row <? h) eqn:E.
  - apply Z.ltb_lt in E. rewrite int64_small by lia.
    destruct (IH (row + cpus)) as (rows & -> & Hnd & Hin); [lia|lia|].
    exists (row :: rows). split; [reflexivity|]. split.
    + constructor; [|exact Hnd]. rewrite Hin.
      intros (_ & k & Hk & Hr). nia.
    + intros r. cbn [In]. rewrite Hin. split.
      * intros [<-|(Hlt & k & Hk & ->)].
        -- split; [lia|]. exists 0. lia.
        -- split; [lia|]. exists (k + 1). lia.
      * intros (Hlt & k & Hk & ->).
        destruct (Z.eq_dec k 0) as [->|Hne]; [left; lia|].
        right. split; [lia|]. exists (k - 1). lia.
  - apply Z.ltb_ge in E. exists []. split; [reflexivity|].
    split; [constructor|]. intros r. cbn [In]. split; [tauto|].
    intros (Hlt & k & Hk & ->). nia.
Qed.

Lemma NoDup_map_injective {A B : Type} (f : A -> B) (l : list A) :
  (forall a b, f a = f b -> a = b) -> NoDup l -> NoDup (map f l).
Proof.
  intros Hinj Hl. induction Hl as [|x l Hx _ IH]; cbn [map]; constructor; auto.
  rewrite in_map_iff. intros (y & Hy & Hin). apply Hinj in Hy. now subst.
Qed.

Lemma row_cols_spec w col : In col (row_cols w) <-> 0 <= col < w.
Proof.
  unfold row_cols. rewrite in_map_iff. split.
  - intros (n & <- & Hn). apply in_seq in Hn. lia.
  - intros H. exists (Z.to_nat col). split; [lia|]. apply in_seq. lia.
Qed.

Lemma row_cols_NoDup w : NoDup (row_cols w).
Proof.
  unfold row_cols. apply NoDup_map_injective; [|apply seq_NoDup].
  intros a b. lia.
Qed.

Lemma pixels_of_rows_NoDup (rows cols : list Z) :
  NoDup rows -> NoDup cols ->
  NoDup (flat_map (fun row => map (fun col => (row, col)) cols) rows).
Proof.
  intros Hr Hc. induction Hr as [|row rows Hnotin _ IH]; [constructor|].
  cbn [flat_map]. apply NoDup_app; auto.
  - apply NoDup_map_injective; [|exact Hc]. intros a b H. now injection H.
  - intros [r c] Hin1 Hin2.
    apply in_map_iff in Hin1 as (c1 & Heq & _). injection Heq as <- <-.
    apply in_flat_map in Hin2 as (r2 & Hr2 & Hin2).
    apply in_map_iff in Hin2 as (c2 & Heq & _). injection Heq as -> _.
    contradiction.
Qed.

(** X15.  Worker i of cpus sets exactly the pixels of the rows congruent to i
    modulo cpus, each pixel once: the workers' pixels are disjoint and
    together they are the whole image. *)
Theorem worker_pixels_partition cpus w h i :
  0 < cpus -> 0 <= i < cpus -> h + cpus < 9223372036854775808 ->
  exists pixels,
    worker_pixels (S (Z.to_nat h)) i cpus w h = Some pixels
    /\ NoDup pixels
    /\ forall row col,
         In (row, col) pixels <->
         (0 <= row < h /\ row mod cpus = i) /\ 0 <= col < w.
Proof.
  intros Hc Hi Hmax.
  destruct (worker_rows_from cpus h Hc Hmax (S (Z.to_nat h)) i)
    as (rows & Hrows & Hnd & Hin); [lia|lia|].
  unfold worker_pixels. rewrite Hrows. eexists. split; [reflexivity|]. split.
  - apply pixels_of_rows_NoDup; [exact Hnd | apply row_cols_NoDup].
  - intros row col. rewrite in_flat_map. split.
    + intros (r & Hr & Hp). apply in_map_iff in Hp as (c & Heq & Hcol).
      injection Heq as -> ->. apply row_cols_spec in Hcol.
      apply Hin in Hr as (Hlt & k & Hk & ->). split; [|exact Hcol].
      split; [nia|]. rewrite Z.mod_add by lia.
      apply Z.mod_small. exact Hi.
    + intros ((Hrow & Hmod) & Hcol). exists row. split.
      * apply Hin. split; [lia|]. exists (row / cpus).
        pose proof (Z.div_mod row cpus ltac:(lia)).
        split; [apply Z.div_pos; lia | lia].
      * apply in_map_iff. exists col. split; [reflexivity|].
        now apply row_cols_spec.
Qed.

Lemma worker_pixels_partition_witness :
  exists pixels,
    worker_pixels (S (Z.to_nat main_h)) 3 8 main_w main_h = Some pixels
    /\ NoDup pixels
    /\ forall row col,
         In (row, col) pixels <->
         (0 <= row < main_h /\ row mod 8 = 3) /\ 0 <= col < main_w.
Proof.
  apply (worker_pixels_partition 8 main_w main_h 3); unfold main_h; lia.
Defined.

(** ** Scaling by one, interpolating at zero *)

(** X24.  Scaling a vector of float64 values by 1 returns it unchanged; the
    function and the method agree. *)
Theorem MulScalar_one v :
  Vec3_is_binary64 v = true ->
  vector3.MulScalar v one = v /\ vector3.Vector3_MulScalar v one = v.
Proof.
  unfold Vec3_is_binary64. intros H.
  apply andb_true_iff in H as [H Hz]. apply andb_true_iff in H as [Hx Hy].
  destruct v as [x y z]. cbn [vector3.X vector3.Y vector3.Z] in *.
  unfold vector3.MulScalar, vector3.Vector3_MulScalar.
  cbn [vector3.X vector3.Y vector3.Z].
  now rewrite !fmul_one by assumption.
Qed.

Lemma MulScalar_one_witness :
  vector3.MulScalar (main_rayDirection 300 1024) one
  = main_rayDirection 300 1024
  /\ vector3.Vector3_MulScalar (main_rayDirection 300 1024) one
     = main_rayDirection 300 1024.
Proof. apply (MulScalar_one (main_rayDirection 300 1024)). reflexivity. Defined.

Lemma fsub_finite_r b a : is_finite (fsub b a) = true -> is_finite a = true.
Proof.
  unfold fsub.
  destruct a as [sa|sa| |sa ma ea]; try reflexivity;
    destruct b as [sb|sb| |sb mb eb]; try destruct sa; try destruct sb;
    cbn; congruence.
Qed.

Lemma lerp_component_at_zero a b :
  is_finite (fsub b a) = true ->
  feq (fadd a (fmul (fsub b a) zero)) a = true.
Proof.
  intros Hd. pose proof (fsub_finite_r b a Hd) as Ha.
  destruct (fsub b a) as [sd|sd| |sd md ed]; try discriminate Hd.
  - destruct a as [sa|sa| |sa ma ea]; try discriminate Ha.
    + destruct sa, sd; reflexivity.
    + destruct sd; cbn -[feq]; now rewrite feq_refl_iff.
  - destruct a as [sa|sa| |sa ma ea]; try discriminate Ha.
    + destruct sa, sd; reflexivity.
    + destruct sd; cbn -[feq]; now rewrite feq_refl_iff.
Qed.

(** X25.  Lerp at t = 0 gives back the first endpoint, up to the sign of a zero
    component, whenever the differences b - a are finite. *)
Theorem Lerp_at_zero a b :
  Vec3_is_finite (vector3.Sub b a) = true ->
  vector3.Vector3_Equals (vector3.Lerp a b zero) a = true.
Proof.
  unfold Vec3_is_finite, vector3.Sub. cbn [vector3.X vector3.Y vector3.Z].
  intros H.
  apply andb_true_iff in H as [H Hz]. apply andb_true_iff in H as [Hx Hy].
  unfold vector3.Vector3_Equals, vector3.Lerp.
  cbn [vector3.X vector3.Y vector3.Z].
  now rewrite !lerp_component_at_zero by assumption.
Qed.

Lemma Lerp_at_zero_witness :
  vector3.Vector3_Equals (vector3.Lerp (vec 1 (-2) 0) (vec 4 5 6) zero)
    (vec 1 (-2) 0) = true.
Proof. apply (Lerp_at_zero (vec 1 (-2) 0) (vec 4 5 6)). reflexivity. Defined.
